(** * The CAsyncDNSResolver header shim

    The C part of swift-async-dns-resolver is two headers,

      - [Sources/CAsyncDNSResolver/include/ares_build.h]
      - [Sources/CAsyncDNSResolver/include/CAsyncDNSResolver.h]

    which contain nothing but preprocessor directives and two [typedef]
    lines.  What they "do" is therefore what the C preprocessor does with
    them.  This file embeds the two headers as directive lists, gives the
    directives their translation-phase-4 meaning (macro table, conditional
    groups, file inclusion, macro replacement of text lines), follows the
    result through a small declaration checker (headers found or not, type
    names declared or not), and proves the properties of the shim on that
    embedding. *)

From Stdlib Require Import String Ascii List.
From stdpp Require Import base gmap strings list fin_maps.

Local Open Scope string_scope.
Local Open Scope list_scope.

(* ===================================================================== *)
(** ** Preprocessing tokens and directives *)
(* ===================================================================== *)

(** A preprocessing token is an identifier (keywords included: for the
    preprocessor [typedef] is an identifier like any other) or a
    punctuator.  Only identifiers can name macros. *)
Inductive token : Type :=
| Id (s : string)
| Punct (s : string).

#[global] Instance token_eq_dec : EqDecision token.
Proof. solve_decision. Defined.

(** [#include <h>] and [#include "h"]. *)
Inductive incl_kind : Type :=
| Angle
| Quote.

#[global] Instance incl_kind_eq_dec : EqDecision incl_kind.
Proof. solve_decision. Defined.

(** The directives that occur in the two headers.  Comments are gone
    before directives are recognised (translation phase 3), so the
    commented-out [/* #undef ... */] lines of ares_build.h leave no
    directive behind. *)
#[local] Unset Elimination Schemes.
Inductive directive : Type :=
| Define (name : string) (body : list token)
| IfDef (name : string) (group : list directive)
| IfNDef (name : string) (group : list directive)
| Include (k : incl_kind) (path : string)
| Text (toks : list token).
#[local] Set Elimination Schemes.

(* ===================================================================== *)
(** ** The two headers *)
(* ===================================================================== *)

(** ares_build.h, lines 15-55. *)
Definition ares_build_h : list directive :=
  [ IfNDef "__CARES_BUILD_H"                                   (* l.15 *)
      [ Define "__CARES_BUILD_H" []                            (* l.16 *)
      ; Define "CARES_TYPEOF_ARES_SOCKLEN_T" [Id "socklen_t"]  (* l.18 *)
      ; Define "CARES_TYPEOF_ARES_SSIZE_T" [Id "ssize_t"]      (* l.19 *)
      ; Define "CARES_HAVE_SYS_TYPES_H" []                     (* l.24 *)
      ; Define "CARES_HAVE_SYS_SOCKET_H" []                    (* l.25 *)
      ; IfDef "CARES_HAVE_SYS_TYPES_H"                         (* l.31 *)
          [ Include Angle "sys/types.h" ]
      ; IfDef "CARES_HAVE_SYS_SOCKET_H"                        (* l.35 *)
          [ Include Angle "sys/socket.h" ]
      ; IfDef "CARES_HAVE_WINSOCK2_H"                          (* l.39 *)
          [ Include Angle "winsock2.h" ]
      ; IfDef "CARES_HAVE_WS2TCPIP_H"                          (* l.43 *)
          [ Include Angle "ws2tcpip.h" ]
      ; IfDef "CARES_HAVE_WINDOWS_H"                           (* l.47 *)
          [ Include Angle "windows.h" ]
      ; Text [Id "typedef"; Id "CARES_TYPEOF_ARES_SOCKLEN_T";
              Id "ares_socklen_t"; Punct ";"]                  (* l.52 *)
      ; Text [Id "typedef"; Id "CARES_TYPEOF_ARES_SSIZE_T";
              Id "ares_ssize_t"; Punct ";"]                    (* l.53 *)
      ] ].

(** CAsyncDNSResolver.h, lines 15-25. *)
Definition CAsyncDNSResolver_h : list directive :=
  [ IfNDef "C_ASYNC_RESOLVER_H"                                (* l.15 *)
      [ Define "C_ASYNC_RESOLVER_H" []                         (* l.16 *)
      ; Include Angle "arpa/inet.h"                            (* l.18 *)
      ; Include Angle "netdb.h"                                (* l.19 *)
      ; Include Quote "ares_build.h"                           (* l.21 *)
      ; Include Quote "ares_config.h"                          (* l.22 *)
      ; Include Quote "../c-ares/include/ares.h"               (* l.23 *)
      ] ].

(** The headers of the include directory whose text is at hand.  A quoted
    include of one of these names is expanded in place.  Every other
    header (system headers, ares_config.h, the vendored ares.h) is outside
    the sources and stays opaque. *)
Definition repo_file (path : string) : option (list directive) :=
  if decide (path = "ares_build.h") then Some ares_build_h
  else if decide (path = "CAsyncDNSResolver.h") then Some CAsyncDNSResolver_h
  else None.

(* ===================================================================== *)
(** ** Macro replacement *)
(* ===================================================================== *)

(** Object-like macros only: the headers define no others. *)
Abbreviation macros := (gmap string (list token)).

Definition defined (m : macros) (n : string) : Prop := is_Some (m !! n).

#[global] Instance defined_dec m n : Decision (defined m n).
Proof. unfold defined. apply _. Defined.

(** Replacement with rescanning.  A macro is not replaced again inside its
    own replacement list; [hide] holds the names being replaced.  Every
    nested replacement hides one more name of the table, so the nesting is
    bounded by the size of the table and [fuel] counts it down. *)
Fixpoint replace (fuel : nat) (m : macros) (hide : gset string)
    (ts : list token) : list token :=
  match fuel with
  | O => ts
  | S fuel' =>
      flat_map
        (fun t =>
           match t with
           | Id s =>
               if decide (s ∈ hide) then [t]
               else match m !! s with
                    | Some body => replace fuel' m ({[ s ]} ∪ hide) body
                    | None => [t]
                    end
           | Punct _ => [t]
           end) ts
  end.

Definition expand_line (m : macros) (ts : list token) : list token :=
  replace (S (size m)) m ∅ ts.

(* ===================================================================== *)
(** ** Preprocessing *)
(* ===================================================================== *)

(** What comes out of the preprocessor, in order: the place where an
    opaque header is textually included, or a text line after macro
    replacement. *)
Inductive event : Type :=
| Extern (k : incl_kind) (path : string)
| Line (toks : list token).

#[global] Instance event_eq_dec : EqDecision event.
Proof. solve_decision. Defined.

Record pp_state : Type := PP {
  pp_macros : macros;
  pp_out : list event
}.

Inductive error : Type :=
| TooDeep (path : string)
| MissingHeader (path : string)
| UndefinedType (ty : list token)
| Unsupported (line : list token).

Inductive result (A : Type) : Type :=
| Ok (a : A)
| Err (e : error).
Arguments Ok {A} a.
Arguments Err {A} e.

Definition bind {A B} (r : result A) (f : A -> result B) : result B :=
  match r with
  | Ok a => f a
  | Err e => Err e
  end.

Notation "x <- r ;; k" := (bind r (fun x => k))
  (at level 100, r at next level, right associativity).

Definition emit (e : event) (st : pp_state) : pp_state :=
  PP (pp_macros st) (pp_out st ++ [e]).

(** [#define]: the name is bound to the replacement list; a binding it
    had before is replaced. *)
Definition define (n : string) (body : list token) (st : pp_state) : pp_state :=
  PP (<[ n := body ]> (pp_macros st)) (pp_out st).

Section Directives.
(** What [#include] does is supplied from outside, one nesting level
    further down. *)
Variable include_file : incl_kind -> string -> pp_state -> result pp_state.

Fixpoint run_directive (d : directive) (st : pp_state) : result pp_state :=
  let run_group :=
    fix run_group (ds : list directive) (st : pp_state) : result pp_state :=
      match ds with
      | [] => Ok st
      | d :: ds' => st' <- run_directive d st ;; run_group ds' st'
      end in
  match d with
  | Define n body => Ok (define n body st)
  | IfDef n group =>
      if decide (defined (pp_macros st) n) then run_group group st else Ok st
  | IfNDef n group =>
      if decide (defined (pp_macros st) n) then Ok st else run_group group st
  | Include k path => include_file k path st
  | Text ts => Ok (emit (Line (expand_line (pp_macros st) ts)) st)
  end.

Fixpoint run_group (ds : list directive) (st : pp_state) : result pp_state :=
  match ds with
  | [] => Ok st
  | d :: ds' => st' <- run_directive d st ;; run_group ds' st'
  end.
End Directives.

(** File inclusion.  A quoted name is looked up next to the including file
    first, where the two headers live; an angle-bracket name only on the
    system path.  A header that is not one of the two is opaque: the place
    of its inclusion is recorded, and its text, which is not part of the
    sources, is taken to leave the macros of the shim alone.  [depth] is
    the nesting still allowed. *)
Fixpoint include_at (depth : nat) (k : incl_kind) (path : string)
    (st : pp_state) : result pp_state :=
  match depth with
  | O => Err (TooDeep path)
  | S depth' =>
      match k, repo_file path with
      | Quote, Some ds => run_group (include_at depth') ds st
      | _, _ => Ok (emit (Extern k path) st)
      end
  end.

(** Nesting limit of the preprocessor (GCC's is 200). *)
Definition nesting_limit : nat := 200.

(** A translation unit is preprocessed from a table of predefined macros
    (compiler built-ins, [-D] options, whatever the unit defined before). *)
Definition preprocess (m : macros) (tu : list directive) : result pp_state :=
  run_group (include_at nesting_limit) tu (PP m []).

Definition include_shim : list directive := [Include Quote "CAsyncDNSResolver.h"].
Definition include_build : list directive := [Include Quote "ares_build.h"].

Definition out_of (r : result pp_state) : list event :=
  match r with Ok st => pp_out st | Err _ => [] end.

(* ===================================================================== *)
(** ** Declarations: what the compiler proper sees *)
(* ===================================================================== *)

(** The target platform, as far as the shim can tell one from another:
    the headers that can be found besides the two at hand, each with the
    type names it declares and their underlying basic types. *)
Abbreviation platform := (gmap string (list (string * list token))).

(** Type names in scope, each with its underlying basic type. *)
Abbreviation typedefs := (gmap string (list token)).

Definition basic_keywords : list string :=
  ["void"; "char"; "short"; "int"; "long"; "signed"; "unsigned";
   "float"; "double"].

Definition is_keyword (t : token) : bool :=
  match t with
  | Id s => bool_decide (s ∈ basic_keywords)
  | Punct _ => false
  end.

Definition is_basic (ty : list token) : bool :=
  match ty with
  | [] => false
  | _ => forallb is_keyword ty
  end.

(** The type a specifier sequence denotes: a typedef name in scope stands
    for its underlying type, a sequence of basic keywords for itself, and
    anything else is not a type. *)
Definition resolve (T : typedefs) (ty : list token) : option (list token) :=
  match ty with
  | [Id n] =>
      match T !! n with
      | Some r => Some r
      | None => if is_basic ty then Some ty else None
      end
  | _ => if is_basic ty then Some ty else None
  end.

(** [typedef <specifiers> <name> ;] *)
Definition parse_typedef (line : list token) : option (list token * string) :=
  match line with
  | kw :: rest =>
      if decide (kw = Id "typedef") then
        match reverse rest with
        | semi :: Id alias :: rty =>
            if decide (semi = Punct ";") then Some (reverse rty, alias) else None
        | _ => None
        end
      else None
  | [] => None
  end.

Definition declare (decls : list (string * list token)) (T : typedefs) : typedefs :=
  foldl (fun T d => <[ d.1 := d.2 ]> T) T decls.

(** One event of the preprocessed unit.  Including a header that cannot
    be found and naming a type that is not declared are the errors of the
    compiler; a line that is no typedef is beyond this checker. *)
Definition check_event (P : platform) (T : typedefs) (e : event) : result typedefs :=
  match e with
  | Extern _ path =>
      match P !! path with
      | Some decls => Ok (declare decls T)
      | None => Err (MissingHeader path)
      end
  | Line toks =>
      match parse_typedef toks with
      | Some (ty, alias) =>
          match resolve T ty with
          | Some r => Ok (<[ alias := r ]> T)
          | None => Err (UndefinedType ty)
          end
      | None => Err (Unsupported toks)
      end
  end.

Fixpoint check (P : platform) (es : list event) (T : typedefs) : result typedefs :=
  match es with
  | [] => Ok T
  | e :: es' => T' <- check_event P T e ;; check P es' T'
  end.

Definition compile (P : platform) (m : macros) (tu : list directive) : result typedefs :=
  st <- preprocess m tu ;; check P (pp_out st) ∅.

(** The underlying type of a name once the unit is compiled. *)
Definition underlying (r : result typedefs) (n : string) : option (list token) :=
  match r with
  | Ok T => T !! n
  | Err _ => None
  end.

(* ===================================================================== *)
(** ** Vocabulary of the statements *)
(* ===================================================================== *)

(** None of the names is a macro. *)
Definition clear (names : list string) (m : macros) : Prop :=
  Forall (fun n => m !! n = None) names.

Definition guards : list string := ["C_ASYNC_RESOLVER_H"; "__CARES_BUILD_H"].

Definition windows_flags : list string :=
  ["CARES_HAVE_WINSOCK2_H"; "CARES_HAVE_WS2TCPIP_H"; "CARES_HAVE_WINDOWS_H"].

Definition windows_headers : list string :=
  ["winsock2.h"; "ws2tcpip.h"; "windows.h"].

(** The identifiers of the two typedef lines that the shim does not
    define as macros itself. *)
Definition decl_idents : list string :=
  ["typedef"; "socklen_t"; "ssize_t"; "ares_socklen_t"; "ares_ssize_t"].

Definition typedef_socklen : event :=
  Line [Id "typedef"; Id "socklen_t"; Id "ares_socklen_t"; Punct ";"].
Definition typedef_ssize : event :=
  Line [Id "typedef"; Id "ssize_t"; Id "ares_ssize_t"; Punct ";"].

Definition ares_h : event := Extern Quote "../c-ares/include/ares.h".
Definition ares_config_h : event := Extern Quote "ares_config.h".

(** [a] occurs in [l] before the first occurrence of [b]. *)
Definition strictly_before (a b : event) (l : list event) : Prop :=
  ∃ l1 l2, l = l1 ++ b :: l2 ∧ a ∈ l1 ∧ b ∉ l1.

(** Two targets.  The first has the usual LP64 choices, the second those
    of a 32-bit system whose socket lengths are plain [int]. *)
Definition lp64_platform : platform :=
  list_to_map
    [ ("arpa/inet.h", [("in_addr_t", [Id "unsigned"; Id "int"])]);
      ("netdb.h", []);
      ("sys/types.h", [("size_t", [Id "unsigned"; Id "long"]);
                       ("ssize_t", [Id "long"])]);
      ("sys/socket.h", [("socklen_t", [Id "unsigned"; Id "int"])]);
      ("ares_config.h", []);
      ("../c-ares/include/ares.h", []) ].

Definition ilp32_platform : platform :=
  list_to_map
    [ ("arpa/inet.h", [("in_addr_t", [Id "unsigned"; Id "int"])]);
      ("netdb.h", []);
      ("sys/types.h", [("size_t", [Id "unsigned"; Id "int"]);
                       ("ssize_t", [Id "int"])]);
      ("sys/socket.h", [("socklen_t", [Id "int"])]);
      ("ares_config.h", []);
      ("../c-ares/include/ares.h", []) ].

(* ===================================================================== *)
(** ** Auxiliary definitions: closed forms, contents, consistency *)
(* ===================================================================== *)

(** The one-token step of [replace], named so that it can be rewritten. *)
Definition replace_token (fuel' : nat) (m : macros) (hide : gset string)
    (t : token) : list token :=
  match t with
  | Id s =>
      if decide (s ∈ hide) then [t]
      else match m !! s with
           | Some body => replace fuel' m ({[ s ]} ∪ hide) body
           | None => [t]
           end
  | Punct _ => [t]
  end.

(** The definitions from here to [shim_result] say in closed form what the
    interpreter computes on the two headers; [include_build_eq] and
    [include_shim_eq] below prove that it does. *)

(** The macro table after lines 16-25 of ares_build.h. *)
Definition build_macros (m : macros) : macros :=
  <[ "CARES_HAVE_SYS_SOCKET_H" := [] ]>
  (<[ "CARES_HAVE_SYS_TYPES_H" := [] ]>
  (<[ "CARES_TYPEOF_ARES_SSIZE_T" := [Id "ssize_t"] ]>
  (<[ "CARES_TYPEOF_ARES_SOCKLEN_T" := [Id "socklen_t"] ]>
  (<[ "__CARES_BUILD_H" := [] ]> m)))).

(** What [#ifdef flag] / [#include <hdr>] / [#endif] puts out. *)
Definition flagged (m : macros) (flag hdr : string) : list event :=
  if decide (defined m flag) then [Extern Angle hdr] else [].

(** Lines 39-49 of ares_build.h. *)
Definition windows_out (m : macros) : list event :=
  flagged m "CARES_HAVE_WINSOCK2_H" "winsock2.h" ++
  flagged m "CARES_HAVE_WS2TCPIP_H" "ws2tcpip.h" ++
  flagged m "CARES_HAVE_WINDOWS_H" "windows.h".

(** The text lines of ares_build.h, l.52 and l.53. *)
Definition line_52 : list token :=
  [Id "typedef"; Id "CARES_TYPEOF_ARES_SOCKLEN_T"; Id "ares_socklen_t"; Punct ";"].
Definition line_53 : list token :=
  [Id "typedef"; Id "CARES_TYPEOF_ARES_SSIZE_T"; Id "ares_ssize_t"; Punct ";"].

(** Lines 52-53 after macro replacement. *)
Definition typedef_lines (m : macros) : list event :=
  [ Line (expand_line (build_macros m) line_52);
    Line (expand_line (build_macros m) line_53) ].

(** Everything a first expansion of ares_build.h puts out. *)
Definition build_out (m : macros) : list event :=
  [Extern Angle "sys/types.h"; Extern Angle "sys/socket.h"] ++
  windows_out m ++ typedef_lines m.

(** The state after [#include "ares_build.h"]. *)
Definition build_result (st : pp_state) : pp_state :=
  if decide (defined (pp_macros st) "__CARES_BUILD_H") then st
  else PP (build_macros (pp_macros st)) (pp_out st ++ build_out (pp_macros st)).

(** The state after [#include "CAsyncDNSResolver.h"]. *)
Definition shim_result (st : pp_state) : pp_state :=
  if decide (defined (pp_macros st) "C_ASYNC_RESOLVER_H") then st
  else
    let st1 := build_result
                 (PP (<[ "C_ASYNC_RESOLVER_H" := [] ]> (pp_macros st))
                     (pp_out st ++ [Extern Angle "arpa/inet.h";
                                    Extern Angle "netdb.h"])) in
    PP (pp_macros st1) (pp_out st1 ++ [ares_config_h; ares_h]).

(** Names a header defines with [#define], conditional groups included. *)
Fixpoint defined_names (d : directive) : list string :=
  match d with
  | Define n _ => [n]
  | IfDef _ g | IfNDef _ g => flat_map defined_names g
  | Include _ _ | Text _ => []
  end.

(** Lines of a header that are not directives. *)
Fixpoint text_lines (d : directive) : list (list token) :=
  match d with
  | Text ts => [ts]
  | IfDef _ g | IfNDef _ g => flat_map text_lines g
  | Define _ _ | Include _ _ => []
  end.

(** Headers a header may include, each with the flag that guards it. *)
Fixpoint includes (guard : option string) (d : directive)
    : list (option string * incl_kind * string) :=
  match d with
  | Include k p => [(guard, k, p)]
  | IfDef n g => flat_map (includes (Some n)) g
  | IfNDef _ g => flat_map (includes guard) g
  | Define _ _ | Text _ => []
  end.

(** The configuration macros of ares_build.h. *)
Definition cares_macros : list string :=
  ["CARES_TYPEOF_ARES_SOCKLEN_T"; "CARES_TYPEOF_ARES_SSIZE_T";
   "CARES_HAVE_SYS_TYPES_H"; "CARES_HAVE_SYS_SOCKET_H"].

(** The event is the inclusion of a header. *)
Definition is_inclusion (e : event) : Prop := ∃ k h, e = Extern k h.

Definition is_ok {A} (r : result A) : bool :=
  match r with Ok _ => true | Err _ => false end.

(** The flags of ares_build.h, each with the header it stands for
    (l.31-49). *)
Definition flag_headers : list (string * string) :=
  omap (fun '(g, _, h) => (fun f : string => (f, h)) <$> g)
       (flat_map (includes None) ares_build_h).

(** The macros of ares_build.h that name a type (l.18-19). *)
Definition typeof_macros : list string :=
  ["CARES_TYPEOF_ARES_SOCKLEN_T"; "CARES_TYPEOF_ARES_SSIZE_T"].

(** The headers CAsyncDNSResolver.h includes under no flag and that are
    not at hand (l.18-19, 22-23). *)
Definition unconditional_headers : list string :=
  omap (fun '(g, _, h) =>
          match g, repo_file h with
          | None, None => Some h
          | _, _ => None
          end)
       (flat_map (includes None) CAsyncDNSResolver_h).

(** The platform-detection macros agree with the platform: every header
    whose flag is set exists there, and every type a CARES_TYPEOF_ macro
    names is declared by one of those headers. *)
Definition flags_consistent (P : platform) (m : macros) : Prop :=
  ∀ f h, (f, h) ∈ flag_headers → defined (build_macros m) f → is_Some (P !! h).

Definition provided (P : platform) (m : macros) (t : string) : Prop :=
  ∃ f h d, (f, h) ∈ flag_headers ∧ defined (build_macros m) f ∧
           P !! h = Some d ∧ t ∈ d.*1.

Definition types_consistent (P : platform) (m : macros) : Prop :=
  ∀ X t, X ∈ typeof_macros → build_macros m !! X = Some [Id t] → provided P m t.

Definition consistent (P : platform) (m : macros) : Prop :=
  flags_consistent P m ∧ types_consistent P m.

Definition unconditional_available (P : platform) : Prop :=
  Forall (fun h => is_Some (P !! h)) unconditional_headers.

(** A target like [lp64_platform] but without netdb.h. *)
Definition no_netdb_platform : platform := delete "netdb.h" lp64_platform.

(** The order of the source lines that can put something out: l.31-53 of
    ares_build.h, and l.18-23 of CAsyncDNSResolver.h around them. *)
Definition build_order : list event :=
  [ Extern Angle "sys/types.h"; Extern Angle "sys/socket.h";
    Extern Angle "winsock2.h"; Extern Angle "ws2tcpip.h";
    Extern Angle "windows.h"; typedef_socklen; typedef_ssize ].

Definition shim_order : list event :=
  [Extern Angle "arpa/inet.h"; Extern Angle "netdb.h"] ++ build_order ++
  [ares_config_h; ares_h].

(** A translation unit that includes the named headers one after the
    other, each with [#include "..."]. *)
Definition include_each (hs : list string) : list directive :=
  map (Include Quote) hs.

(** How often an event occurs in the output. *)
Definition occurrences (e : event) (l : list event) : nat :=
  length (filter (fun x => x = e) l).


(** What holds of the state of a unit between inclusions of the two
    headers: the identifiers of the typedef lines are free, the guard of
    CAsyncDNSResolver.h is set only after that of ares_build.h, and each
    typedef is in the output once if the guard of ares_build.h is set and
    not at all if it is not. *)
Definition typedefs_once (st : pp_state) : Prop :=
  clear decl_idents (pp_macros st) ∧
  (defined (pp_macros st) "C_ASYNC_RESOLVER_H" →
   defined (pp_macros st) "__CARES_BUILD_H") ∧
  ∀ e, e = typedef_socklen ∨ e = typedef_ssize →
       occurrences e (pp_out st) =
       if decide (defined (pp_macros st) "__CARES_BUILD_H") then 1 else 0.

(* ===================================================================== *)
(** ** Running the model *)
(* ===================================================================== *)

Example shim_plain :
  out_of (preprocess ∅ include_shim) =
  [ Extern Angle "arpa/inet.h"; Extern Angle "netdb.h";
    Extern Angle "sys/types.h"; Extern Angle "sys/socket.h";
    typedef_socklen; typedef_ssize; ares_config_h; ares_h ].
Proof. vm_compute. reflexivity. Qed.

Example shim_lp64 :
  underlying (compile lp64_platform ∅ include_shim) "ares_socklen_t"
    = Some [Id "unsigned"; Id "int"] ∧
  underlying (compile lp64_platform ∅ include_shim) "ares_ssize_t"
    = Some [Id "long"].
Proof. split; vm_compute; reflexivity. Qed.

Example shim_ilp32 :
  underlying (compile ilp32_platform ∅ include_shim) "ares_socklen_t"
    = Some [Id "int"] ∧
  underlying (compile ilp32_platform ∅ include_shim) "ares_ssize_t"
    = Some [Id "int"].
Proof. split; vm_compute; reflexivity. Qed.

(* ===================================================================== *)
(** ** Equations of the interpreter *)
(* ===================================================================== *)

Section Equations.
Variable inc : incl_kind -> string -> pp_state -> result pp_state.

Lemma run_group_nil st : run_group inc [] st = Ok st.
Proof. reflexivity. Qed.

Lemma run_group_cons d ds st :
  run_group inc (d :: ds) st = (st' <- run_directive inc d st ;; run_group inc ds st').
Proof. reflexivity. Qed.

Lemma run_define n body st :
  run_directive inc (Define n body) st = Ok (define n body st).
Proof. reflexivity. Qed.

Lemma run_ifdef n g st :
  run_directive inc (IfDef n g) st =
  if decide (defined (pp_macros st) n) then run_group inc g st else Ok st.
Proof. reflexivity. Qed.

Lemma run_ifndef n g st :
  run_directive inc (IfNDef n g) st =
  if decide (defined (pp_macros st) n) then Ok st else run_group inc g st.
Proof. reflexivity. Qed.

Lemma run_include k p st :
  run_directive inc (Include k p) st = inc k p st.
Proof. reflexivity. Qed.

Lemma run_text ts st :
  run_directive inc (Text ts) st = Ok (emit (Line (expand_line (pp_macros st) ts)) st).
Proof. reflexivity. Qed.
End Equations.

Lemma bind_ok {A B} (a : A) (f : A -> result B) : (x <- Ok a ;; f x) = f a.
Proof. reflexivity. Qed.

Lemma bind_ret {A} (r : result A) : (x <- r ;; Ok x) = r.
Proof. by destruct r. Qed.

Lemma run_group_single inc d st : run_group inc [d] st = run_directive inc d st.
Proof. rewrite run_group_cons. apply bind_ret. Qed.

(* ===================================================================== *)
(** ** Macro replacement: inert tokens and the fuel *)
(* ===================================================================== *)

Lemma replace_S fuel m hide ts :
  replace (S fuel) m hide ts = flat_map (replace_token fuel m hide) ts.
Proof. reflexivity. Qed.

Lemma flat_map_id {A} (f : A -> list A) (l : list A) :
  (∀ a, a ∈ l → f a = [a]) → flat_map f l = l.
Proof.
  induction l as [|a l IH]; intros H; simpl; [done|].
  rewrite H by left. rewrite IH; [done|].
  intros b Hb. apply H. by right.
Qed.

(** Tokens that are hidden or name no macro come out as they went in,
    whatever the fuel. *)
Lemma replace_inert fuel m hide ts :
  (∀ s, Id s ∈ ts → s ∈ hide ∨ m !! s = None) →
  replace fuel m hide ts = ts.
Proof.
  destruct fuel as [|fuel]; [done|].
  intros H. rewrite replace_S. apply flat_map_id.
  intros [s|p] Hin; simpl; [|done].
  destruct (H s Hin) as [Hh|Hn].
  - by rewrite decide_True.
  - destruct (decide (s ∈ hide)); [done|]. by rewrite Hn.
Qed.

(** More fuel than there are names left to hide changes nothing: the fuel
    of [expand_line] never runs out. *)
Lemma replace_enough fuel m hide ts :
  size (dom m ∖ hide) < fuel →
  replace (S fuel) m hide ts = replace fuel m hide ts.
Proof.
  revert hide ts. induction fuel as [|fuel IH]; intros hide ts Hsz; [lia|].
  rewrite (replace_S (S fuel)), (replace_S fuel).
  apply flat_map_ext. intros [s|p]; simpl; [|done].
  destruct (decide (s ∈ hide)) as [|Hs]; [done|].
  destruct (m !! s) as [body|] eqn:Hm; [|done].
  apply IH.
  assert (dom m ∖ ({[s]} ∪ hide) ⊂ dom m ∖ hide) as Hsub.
  { apply strict_spec_alt. split; [set_solver|].
    intros Heq. assert (s ∈ dom m ∖ hide) as Hin.
    { apply elem_of_difference. split; [|done]. apply elem_of_dom. eauto. }
    rewrite <- Heq in Hin. set_solver. }
  apply subset_size in Hsub. lia.
Qed.

Lemma expand_line_fuel m ts k :
  replace (S (size m) + k) m ∅ ts = expand_line m ts.
Proof.
  unfold expand_line. induction k as [|k IH].
  - by rewrite Nat.add_0_r.
  - rewrite Nat.add_succ_r, replace_enough; [done|].
    rewrite difference_empty_L, size_dom. lia.
Qed.

(** A typedef line whose type is named through a macro. *)
Lemma expand_typedef m X t alias :
  m !! "typedef" = None → m !! X = Some [Id t] →
  m !! t = None → m !! alias = None →
  expand_line m [Id "typedef"; Id X; Id alias; Punct ";"]
  = [Id "typedef"; Id t; Id alias; Punct ";"].
Proof.
  intros Htd HX Ht Ha. unfold expand_line. rewrite replace_S. simpl.
  rewrite !decide_False by set_solver. rewrite Htd, HX, Ha.
  rewrite replace_inert; [done|].
  intros s Hs. apply list_elem_of_singleton in Hs. injection Hs as ->. by right.
Qed.

(* ===================================================================== *)
(** ** Closed forms of the two expansions *)
(* ===================================================================== *)

Lemma include_angle d p st :
  include_at (S d) Angle p st = Ok (emit (Extern Angle p) st).
Proof. reflexivity. Qed.

Lemma include_opaque d p st :
  repo_file p = None →
  include_at (S d) Quote p st = Ok (emit (Extern Quote p) st).
Proof. intros H. simpl. by rewrite H. Qed.

Lemma build_macros_other m n :
  n ∉ ["__CARES_BUILD_H"; "CARES_TYPEOF_ARES_SOCKLEN_T";
       "CARES_TYPEOF_ARES_SSIZE_T"; "CARES_HAVE_SYS_TYPES_H";
       "CARES_HAVE_SYS_SOCKET_H"] →
  build_macros m !! n = m !! n.
Proof.
  intros Hn. unfold build_macros.
  rewrite !lookup_insert_ne; [done|..]; intros <-; apply Hn; set_solver.
Qed.

Lemma run_flagged d flag hdr m out :
  build_macros m !! flag = m !! flag →
  run_directive (include_at (S d)) (IfDef flag [Include Angle hdr])
    (PP (build_macros m) out)
  = Ok (PP (build_macros m) (out ++ flagged m flag hdr)).
Proof.
  intros Hl. rewrite run_ifdef. unfold flagged. simpl pp_macros.
  rewrite (decide_ext _ (defined m flag)) by (unfold defined; by rewrite Hl).
  destruct (decide (defined m flag)).
  - by rewrite run_group_single, run_include, include_angle.
  - by rewrite app_nil_r.
Qed.

Lemma include_build_eq d st :
  include_at (S (S d)) Quote "ares_build.h" st = Ok (build_result st).
Proof.
  destruct st as [m out].
  change (include_at (S (S d)) Quote "ares_build.h" (PP m out))
    with (run_group (include_at (S d)) ares_build_h (PP m out)).
  unfold ares_build_h, build_result. simpl pp_macros. simpl pp_out.
  rewrite run_group_single, run_ifndef. simpl pp_macros.
  destruct (decide (defined m "__CARES_BUILD_H")) as [Hg|Hg]; [done|].
  do 5 (rewrite run_group_cons, run_define, bind_ok; unfold define;
        simpl pp_macros; simpl pp_out).
  fold (build_macros m).
  rewrite run_group_cons, run_ifdef. simpl pp_macros.
  rewrite decide_True by (unfold defined, build_macros; by simplify_map_eq).
  rewrite run_group_single, run_include, include_angle, bind_ok.
  rewrite run_group_cons, run_ifdef. simpl pp_macros.
  rewrite decide_True by (unfold defined, build_macros; by simplify_map_eq).
  rewrite run_group_single, run_include, include_angle, bind_ok.
  unfold emit. simpl pp_macros. simpl pp_out.
  do 3 (rewrite run_group_cons, run_flagged, bind_ok
          by (apply build_macros_other; set_solver)).
  do 2 (rewrite run_group_cons, run_text, bind_ok; unfold emit;
        simpl pp_macros; simpl pp_out).
  rewrite run_group_nil. f_equal. f_equal.
  unfold build_out, windows_out, typedef_lines.
  rewrite <- !app_assoc. reflexivity.
Qed.

Lemma include_shim_eq d st :
  include_at (S (S (S d))) Quote "CAsyncDNSResolver.h" st = Ok (shim_result st).
Proof.
  destruct st as [m out].
  change (include_at (S (S (S d))) Quote "CAsyncDNSResolver.h" (PP m out))
    with (run_group (include_at (S (S d))) CAsyncDNSResolver_h (PP m out)).
  unfold CAsyncDNSResolver_h, shim_result. simpl pp_macros. simpl pp_out.
  rewrite run_group_single, run_ifndef. simpl pp_macros.
  destruct (decide (defined m "C_ASYNC_RESOLVER_H")) as [Hg|Hg]; [done|].
  rewrite run_group_cons, run_define, bind_ok. unfold define.
  simpl pp_macros. simpl pp_out.
  do 2 (rewrite run_group_cons, run_include, include_angle, bind_ok;
        unfold emit; simpl pp_macros; simpl pp_out).
  rewrite run_group_cons, run_include, include_build_eq, bind_ok.
  rewrite <- app_assoc. simpl app.
  do 2 (rewrite run_group_cons, run_include, include_opaque, bind_ok by done;
        unfold emit; simpl pp_macros; simpl pp_out).
  rewrite run_group_nil, <- app_assoc. reflexivity.
Qed.

Lemma preprocess_build m :
  preprocess m include_build = Ok (build_result (PP m [])).
Proof.
  unfold preprocess, include_build, nesting_limit.
  rewrite run_group_single, run_include.
  change 200 with (S (S 198)). apply include_build_eq.
Qed.

Lemma preprocess_shim m :
  preprocess m include_shim = Ok (shim_result (PP m [])).
Proof.
  unfold preprocess, include_shim, nesting_limit.
  rewrite run_group_single, run_include.
  change 200 with (S (S (S 197))). apply include_shim_eq.
Qed.

Lemma clear_lookup names m n : clear names m → n ∈ names → m !! n = None.
Proof. unfold clear. rewrite Forall_forall. auto. Qed.

Lemma clear_not_defined names m n : clear names m → n ∈ names → ¬ defined m n.
Proof.
  intros Hc Hn [b Hb]. rewrite (clear_lookup _ _ _ Hc Hn) in Hb. discriminate.
Qed.

(** With the identifiers of the two lines left alone, the lines say what
    they seem to say. *)
Lemma typedef_lines_clear m :
  clear decl_idents m → typedef_lines m = [typedef_socklen; typedef_ssize].
Proof.
  intros Hc. unfold typedef_lines, line_52, line_53, typedef_socklen, typedef_ssize.
  assert (∀ n, n ∈ decl_idents → build_macros m !! n = None) as Hn.
  { intros n Hin. rewrite build_macros_other.
    - by apply (clear_lookup _ _ _ Hc).
    - intros Hbad. unfold decl_idents in Hin. set_solver. }
  rewrite (expand_typedef _ _ "socklen_t"), (expand_typedef _ _ "ssize_t");
    first done.
  all: try (apply Hn; unfold decl_idents; set_solver).
  all: unfold build_macros; by simplify_map_eq.
Qed.

(* ===================================================================== *)
(** ** What the directive lists contain *)
(* ===================================================================== *)

Example build_defines :
  flat_map defined_names ares_build_h =
  ["__CARES_BUILD_H"; "CARES_TYPEOF_ARES_SOCKLEN_T"; "CARES_TYPEOF_ARES_SSIZE_T";
   "CARES_HAVE_SYS_TYPES_H"; "CARES_HAVE_SYS_SOCKET_H"].
Proof. reflexivity. Qed.

Example build_includes :
  flat_map (includes None) ares_build_h =
  [ (Some "CARES_HAVE_SYS_TYPES_H", Angle, "sys/types.h");
    (Some "CARES_HAVE_SYS_SOCKET_H", Angle, "sys/socket.h");
    (Some "CARES_HAVE_WINSOCK2_H", Angle, "winsock2.h");
    (Some "CARES_HAVE_WS2TCPIP_H", Angle, "ws2tcpip.h");
    (Some "CARES_HAVE_WINDOWS_H", Angle, "windows.h") ].
Proof. reflexivity. Qed.

Example shim_includes :
  flat_map (includes None) CAsyncDNSResolver_h =
  [ (None, Angle, "arpa/inet.h"); (None, Angle, "netdb.h");
    (None, Quote, "ares_build.h"); (None, Quote, "ares_config.h");
    (None, Quote, "../c-ares/include/ares.h") ].
Proof. reflexivity. Qed.

(* ===================================================================== *)
(** ** Facts about the expansions *)
(* ===================================================================== *)

Lemma flagged_elem m flag hdr e :
  e ∈ flagged m flag hdr ↔ e = Extern Angle hdr ∧ defined m flag.
Proof.
  unfold flagged. destruct (decide (defined m flag)).
  - rewrite list_elem_of_singleton. naive_solver.
  - rewrite elem_of_nil. naive_solver.
Qed.

Lemma windows_out_elem m e :
  e ∈ windows_out m ↔
  (e = Extern Angle "winsock2.h" ∧ defined m "CARES_HAVE_WINSOCK2_H") ∨
  (e = Extern Angle "ws2tcpip.h" ∧ defined m "CARES_HAVE_WS2TCPIP_H") ∨
  (e = Extern Angle "windows.h" ∧ defined m "CARES_HAVE_WINDOWS_H").
Proof. unfold windows_out. rewrite !elem_of_app, !flagged_elem. tauto. Qed.

Lemma windows_out_clear m : clear windows_flags m → windows_out m = [].
Proof.
  intros Hc. unfold windows_out, flagged.
  rewrite !decide_False; first done.
  all: apply (clear_not_defined _ _ _ Hc); unfold windows_flags; set_solver.
Qed.

Lemma build_out_elem m e :
  e ∈ build_out m ↔
  e = Extern Angle "sys/types.h" ∨ e = Extern Angle "sys/socket.h" ∨
  e ∈ windows_out m ∨ e ∈ typedef_lines m.
Proof.
  unfold build_out. rewrite !elem_of_app, elem_of_cons, list_elem_of_singleton.
  tauto.
Qed.

Lemma ares_h_not_in_build m : ares_h ∉ build_out m.
Proof.
  rewrite build_out_elem, windows_out_elem. unfold typedef_lines, ares_h.
  rewrite elem_of_cons, list_elem_of_singleton. naive_solver.
Qed.

Lemma build_result_first m out :
  ¬ defined m "__CARES_BUILD_H" →
  build_result (PP m out) = PP (build_macros m) (out ++ build_out m).
Proof. intros H. unfold build_result. simpl. by rewrite decide_False. Qed.

Lemma shim_result_first m :
  clear guards m →
  shim_result (PP m []) =
  PP (build_macros (<[ "C_ASYNC_RESOLVER_H" := [] ]> m))
     ([Extern Angle "arpa/inet.h"; Extern Angle "netdb.h"] ++
      build_out (<[ "C_ASYNC_RESOLVER_H" := [] ]> m) ++
      [ares_config_h; ares_h]).
Proof.
  intros Hc. unfold shim_result. simpl pp_macros. simpl pp_out.
  rewrite decide_False
    by (apply (clear_not_defined _ _ _ Hc); unfold guards; set_solver).
  rewrite build_result_first.
  - simpl. by rewrite <- app_assoc.
  - unfold defined. rewrite lookup_insert_ne by done.
    apply (clear_not_defined _ _ _ Hc). unfold guards. set_solver.
Qed.

Lemma clear_insert names m n b :
  n ∉ names → clear names m → clear names (<[ n := b ]> m).
Proof.
  unfold clear. rewrite !Forall_forall. intros Hn Hc x Hx.
  rewrite lookup_insert_ne; [by apply Hc|]. intros ->. done.
Qed.

Lemma clear_build_macros names m :
  (∀ n, n ∈ names → n ∉ flat_map defined_names ares_build_h) →
  clear names m → clear names (build_macros m).
Proof.
  unfold clear. rewrite !Forall_forall. intros Hn Hc x Hx.
  rewrite build_macros_other; [by apply Hc|]. by apply Hn.
Qed.

(* ===================================================================== *)
(** ** Facts about the declaration checker *)
(* ===================================================================== *)

Lemma declare_lookup decls (T : typedefs) n :
  is_Some (T !! n) → is_Some (declare decls T !! n).
Proof.
  unfold declare. revert T. induction decls as [|[a r] decls IH]; intros T H; [done|].
  simpl. apply IH. destruct (decide (a = n)) as [->|Hne].
  - rewrite lookup_insert_eq. eauto.
  - by rewrite lookup_insert_ne.
Qed.

Lemma declare_declared decls (T : typedefs) n :
  n ∈ decls.*1 → is_Some (declare decls T !! n).
Proof.
  unfold declare. revert T. induction decls as [|[a r] decls IH]; intros T H.
  - by apply elem_of_nil in H.
  - simpl in *. apply elem_of_cons in H as [->|H].
    + apply (declare_lookup decls). rewrite lookup_insert_eq. eauto.
    + by apply IH.
Qed.

Lemma check_event_keeps P (T T' : typedefs) e n :
  check_event P T e = Ok T' → is_Some (T !! n) → is_Some (T' !! n).
Proof.
  destruct e as [k p|toks]; simpl.
  - destruct (P !! p) as [d|]; [|done]. intros [= <-]. apply declare_lookup.
  - destruct (parse_typedef toks) as [[ty alias]|]; [|done].
    destruct (resolve T ty) as [r|]; [|done]. intros [= <-] H.
    destruct (decide (alias = n)) as [->|Hne].
    + rewrite lookup_insert_eq. eauto.
    + by rewrite lookup_insert_ne.
Qed.

Lemma check_keeps P es (T T' : typedefs) n :
  check P es T = Ok T' → is_Some (T !! n) → is_Some (T' !! n).
Proof.
  revert T. induction es as [|e es IH]; intros T; simpl.
  - by intros [= <-].
  - destruct (check_event P T e) as [T1|] eqn:He; [|done]. simpl.
    intros Hc Hn. apply (IH T1 Hc). by apply (check_event_keeps P T T1 e).
Qed.

(** A typedef line that passed the checker has put its name in scope. *)
Lemma check_typedef_in_scope P es (T T' : typedefs) line ty alias :
  check P es T = Ok T' → Line line ∈ es →
  parse_typedef line = Some (ty, alias) → is_Some (T' !! alias).
Proof.
  revert T. induction es as [|e es IH]; intros T Hc Hin Hp.
  - by apply elem_of_nil in Hin.
  - simpl in Hc. destruct (check_event P T e) as [T1|] eqn:He; [|done].
    simpl in Hc. apply elem_of_cons in Hin as [<-|Hin]; [|by apply (IH T1)].
    apply (check_keeps P es T1 T' alias Hc).
    simpl in He. rewrite Hp in He.
    destruct (resolve T ty) as [r|]; [|done]. injection He as <-.
    rewrite lookup_insert_eq. eauto.
Qed.

Lemma check_app P es1 es2 (T T' : typedefs) :
  check P (es1 ++ es2) T = Ok T' ↔
  ∃ T1, check P es1 T = Ok T1 ∧ check P es2 T1 = Ok T'.
Proof.
  revert T. induction es1 as [|e es1 IH]; intros T; simpl.
  - split; [eauto|]. by intros (T1 & [= <-] & H).
  - destruct (check_event P T e) as [T1|]; simpl; [apply IH|].
    split; [done|]. by intros (? & ? & ?).
Qed.

Example parse_socklen :
  parse_typedef [Id "typedef"; Id "socklen_t"; Id "ares_socklen_t"; Punct ";"]
  = Some ([Id "socklen_t"], "ares_socklen_t").
Proof. reflexivity. Qed.

Example parse_ssize :
  parse_typedef [Id "typedef"; Id "ssize_t"; Id "ares_ssize_t"; Punct ";"]
  = Some ([Id "ssize_t"], "ares_ssize_t").
Proof. reflexivity. Qed.

(* ===================================================================== *)
(** ** The claims *)
(* ===================================================================== *)

(** C1.  Including CAsyncDNSResolver.h for the first time, with the
    identifiers of the two typedef lines not taken by macros, yields an
    expansion whose last event is the inclusion of the vendored ares.h;
    both [typedef ... ares_socklen_t;] and [typedef ... ares_ssize_t;]
    stand before it, and on every platform on which the events before
    ares.h pass the checker both aliases are in scope when ares.h is
    reached. *)
Theorem C1_aliases_defined_before_ares_h (m : macros) :
  clear guards m → clear decl_idents m →
  ∃ st before,
    preprocess m include_shim = Ok st ∧
    pp_out st = before ++ [ares_h] ∧
    ares_h ∉ before ∧
    typedef_socklen ∈ before ∧ typedef_ssize ∈ before ∧
    ∀ P T, check P before ∅ = Ok T →
           is_Some (T !! "ares_socklen_t") ∧ is_Some (T !! "ares_ssize_t").
Proof.
  intros Hg Hd.
  set (m' := <[ "C_ASYNC_RESOLVER_H" := [] ]> m).
  assert (typedef_lines m' = [typedef_socklen; typedef_ssize]) as Hl.
  { apply typedef_lines_clear, clear_insert; [|done].
    unfold decl_idents. set_solver. }
  exists (shim_result (PP m [])),
    ([Extern Angle "arpa/inet.h"; Extern Angle "netdb.h"] ++
     build_out m' ++ [ares_config_h]).
  assert (typedef_socklen ∈ build_out m' ∧ typedef_ssize ∈ build_out m')
    as [H1 H2].
  { rewrite !build_out_elem, Hl. split; do 3 right; set_solver. }
  split; [apply preprocess_shim|].
  split; [rewrite shim_result_first by done; simpl; by rewrite <- !app_assoc|].
  split.
  { rewrite !elem_of_app, !elem_of_cons, elem_of_nil.
    pose proof (ares_h_not_in_build m'). unfold ares_h, ares_config_h in *.
    naive_solver. }
  assert (∀ e, e ∈ build_out m' →
               e ∈ [Extern Angle "arpa/inet.h"; Extern Angle "netdb.h"] ++
                   build_out m' ++ [ares_config_h]) as Hmid.
  { intros e He. rewrite !elem_of_app. tauto. }
  split; [by apply Hmid|]. split; [by apply Hmid|].
  intros P T Hc. split.
  - apply (check_typedef_in_scope P _ ∅ T
             [Id "typedef"; Id "socklen_t"; Id "ares_socklen_t"; Punct ";"]
             [Id "socklen_t"] "ares_socklen_t" Hc); [|reflexivity].
    by apply Hmid.
  - apply (check_typedef_in_scope P _ ∅ T
             [Id "typedef"; Id "ssize_t"; Id "ares_ssize_t"; Punct ";"]
             [Id "ssize_t"] "ares_ssize_t" Hc); [|reflexivity].
    by apply Hmid.
Qed.

Lemma clear_empty names : clear names ∅.
Proof. unfold clear. apply Forall_forall. intros n _. apply lookup_empty. Qed.

Lemma C1_witness :
  clear guards ∅ ∧ clear decl_idents ∅ ∧
  ∃ st before,
    preprocess ∅ include_shim = Ok st ∧
    pp_out st = before ++ [ares_h] ∧
    ares_h ∉ before ∧
    typedef_socklen ∈ before ∧ typedef_ssize ∈ before ∧
    ∀ P T, check P before ∅ = Ok T →
           is_Some (T !! "ares_socklen_t") ∧ is_Some (T !! "ares_ssize_t").
Proof.
  split; [apply clear_empty|]. split; [apply clear_empty|].
  apply (C1_aliases_defined_before_ares_h ∅); apply clear_empty.
Defined.

(** A concrete name is not in a concrete list of other names. *)
Ltac not_listed :=
  let H := fresh in
  intros H;
  repeat (apply elem_of_cons in H as [H|H]; [discriminate H|]);
  by apply elem_of_nil in H.

Lemma typedef_lines_no_extern m k h : Extern k h ∉ typedef_lines m.
Proof.
  unfold typedef_lines. rewrite elem_of_cons, list_elem_of_singleton.
  naive_solver.
Qed.

Lemma extern_in_build_out m k h :
  Extern k h ∈ build_out m ↔
  k = Angle ∧
  (h = "sys/types.h" ∨ h = "sys/socket.h" ∨
   (h = "winsock2.h" ∧ defined m "CARES_HAVE_WINSOCK2_H") ∨
   (h = "ws2tcpip.h" ∧ defined m "CARES_HAVE_WS2TCPIP_H") ∨
   (h = "windows.h" ∧ defined m "CARES_HAVE_WINDOWS_H")).
Proof.
  rewrite build_out_elem, windows_out_elem.
  pose proof (typedef_lines_no_extern m k h).
  split.
  - intros [E|[E|[[[E ?]|[[E ?]|[E ?]]]|?]]]; try done;
      injection E as -> ->; tauto.
  - intros [-> [->|[->|[[-> ?]|[[-> ?]|[-> ?]]]]]]; tauto.
Qed.

Lemma windows_header_cases h :
  h ∈ windows_headers ↔ h = "winsock2.h" ∨ h = "ws2tcpip.h" ∨ h = "windows.h".
Proof.
  unfold windows_headers.
  rewrite !elem_of_cons, elem_of_nil. tauto.
Qed.

Lemma clear_windows_flags m :
  clear windows_flags m ↔
  ¬ defined m "CARES_HAVE_WINSOCK2_H" ∧ ¬ defined m "CARES_HAVE_WS2TCPIP_H" ∧
  ¬ defined m "CARES_HAVE_WINDOWS_H".
Proof.
  unfold clear, windows_flags, defined.
  rewrite !Forall_cons, Forall_nil, <- !eq_None_not_Some. tauto.
Qed.

Lemma no_windows_in_build_out m k h :
  clear windows_flags m → h ∈ windows_headers → Extern k h ∉ build_out m.
Proof.
  rewrite clear_windows_flags, windows_header_cases, extern_in_build_out.
  intros (? & ? & ?) [-> | [-> | ->]] [_ Hcase];
    destruct Hcase as [?|[?|[[? ?]|[[? ?]|[? ?]]]]]; done.
Qed.

(** Neither header touches a Windows flag. *)
Lemma build_result_windows_flags st :
  clear windows_flags (pp_macros st) →
  clear windows_flags (pp_macros (build_result st)).
Proof.
  intros Hc. unfold build_result.
  destruct (decide (defined (pp_macros st) "__CARES_BUILD_H")) as [|Hg]; [done|].
  simpl. apply clear_build_macros; [|done].
  intros f. unfold windows_flags. rewrite !elem_of_cons, elem_of_nil.
  intros [-> | [-> | [-> | []]]]; simpl; not_listed.
Qed.

Lemma build_result_no_windows st k h :
  clear windows_flags (pp_macros st) → h ∈ windows_headers →
  Extern k h ∉ pp_out st → Extern k h ∉ pp_out (build_result st).
Proof.
  intros Hc Hh Ho. unfold build_result.
  destruct (decide (defined (pp_macros st) "__CARES_BUILD_H")); [done|].
  simpl. rewrite elem_of_app. intros [?|?]; [done|].
  by apply (no_windows_in_build_out (pp_macros st) k h).
Qed.

(** C3.  With none of CARES_HAVE_WINSOCK2_H, CARES_HAVE_WS2TCPIP_H and
    CARES_HAVE_WINDOWS_H predefined (as on a POSIX target), expanding
    ares_build.h, alone or through CAsyncDNSResolver.h, includes none of
    winsock2.h, ws2tcpip.h and windows.h; no [#define] of either header
    names one of the three flags, and they are still undefined after the
    expansion. *)
Theorem C3_no_windows_header_on_posix (m : macros) :
  clear windows_flags m →
  (∀ f, f ∈ windows_flags →
        f ∉ flat_map defined_names (ares_build_h ++ CAsyncDNSResolver_h)) ∧
  ∃ sb ss,
    preprocess m include_build = Ok sb ∧
    preprocess m include_shim = Ok ss ∧
    (∀ k h, h ∈ windows_headers →
            Extern k h ∉ pp_out sb ∧ Extern k h ∉ pp_out ss) ∧
    clear windows_flags (pp_macros sb) ∧
    clear windows_flags (pp_macros ss).
Proof.
  intros Hc. split.
  { intros f. unfold windows_flags. rewrite !elem_of_cons, elem_of_nil.
    intros [-> | [-> | [-> | []]]]; simpl; not_listed. }
  exists (build_result (PP m [])), (shim_result (PP m [])).
  split; [apply preprocess_build|]. split; [apply preprocess_shim|].
  assert (clear windows_flags (<[ "C_ASYNC_RESOLVER_H" := [] ]> m)) as Hc'.
  { apply clear_insert; [|done]. unfold windows_flags.
    rewrite !elem_of_cons, elem_of_nil. naive_solver. }
  split; [|split].
  - intros k h Hh. split.
    + apply build_result_no_windows; [done..|]. simpl. apply not_elem_of_nil.
    + unfold shim_result. simpl pp_macros. simpl pp_out.
      destruct (decide (defined m "C_ASYNC_RESOLVER_H")); simpl;
        [apply not_elem_of_nil|].
      rewrite elem_of_app. intros [Hin|Hin].
      * revert Hin. apply build_result_no_windows; [done..|]. simpl.
        apply windows_header_cases in Hh.
        rewrite !elem_of_cons, elem_of_nil. naive_solver.
      * apply windows_header_cases in Hh. unfold ares_config_h, ares_h in Hin.
        rewrite !elem_of_cons, elem_of_nil in Hin. naive_solver.
  - by apply (build_result_windows_flags (PP m [])).
  - unfold shim_result. simpl pp_macros. simpl pp_out.
    destruct (decide (defined m "C_ASYNC_RESOLVER_H")); simpl; [done|].
    by apply (build_result_windows_flags (PP _ _)).
Qed.

Lemma C3_witness :
  clear windows_flags ∅ ∧
  ∃ sb ss,
    preprocess ∅ include_build = Ok sb ∧
    preprocess ∅ include_shim = Ok ss ∧
    (∀ k h, h ∈ windows_headers →
            Extern k h ∉ pp_out sb ∧ Extern k h ∉ pp_out ss) ∧
    clear windows_flags (pp_macros sb) ∧
    clear windows_flags (pp_macros ss).
Proof.
  split; [apply clear_empty|].
  apply (C3_no_windows_header_on_posix ∅), clear_empty.
Defined.

(* --------------------------------------------------------------------- *)

Lemma defined_build_macros_flag m f :
  f ∈ windows_flags → defined (build_macros m) f ↔ defined m f.
Proof.
  intros Hf. unfold defined. rewrite build_macros_other; [done|].
  unfold windows_flags in Hf. rewrite !elem_of_cons, elem_of_nil in Hf.
  destruct Hf as [-> | [-> | [-> | []]]]; not_listed.
Qed.

Lemma defined_build_macros_sys m :
  defined (build_macros m) "CARES_HAVE_SYS_TYPES_H" ∧
  defined (build_macros m) "CARES_HAVE_SYS_SOCKET_H".
Proof. unfold defined, build_macros. split; by simplify_map_eq. Qed.

(** C5.  In the first expansion of ares_build.h every conditional include
    of the file follows its flag: the header is included exactly when the
    flag is defined, for sys/types.h, sys/socket.h and winsock2.h (and for
    the two other Windows headers).  The selection varies with what the
    target predefines: with CARES_HAVE_WINSOCK2_H predefined winsock2.h is
    included, without it it is not. *)
Theorem C5_includes_follow_flags (m : macros) :
  ¬ defined m "__CARES_BUILD_H" →
  (∃ st,
     preprocess m include_build = Ok st ∧
     (∀ f k h, (Some f, k, h) ∈ flat_map (includes None) ares_build_h →
               Extern k h ∈ pp_out st ↔ defined (pp_macros st) f) ∧
     (Extern Angle "sys/types.h" ∈ pp_out st
        ↔ defined (pp_macros st) "CARES_HAVE_SYS_TYPES_H") ∧
     (Extern Angle "sys/socket.h" ∈ pp_out st
        ↔ defined (pp_macros st) "CARES_HAVE_SYS_SOCKET_H") ∧
     (Extern Angle "winsock2.h" ∈ pp_out st
        ↔ defined (pp_macros st) "CARES_HAVE_WINSOCK2_H") ∧
     (defined (pp_macros st) "CARES_HAVE_WINSOCK2_H"
        ↔ defined m "CARES_HAVE_WINSOCK2_H")) ∧
  Extern Angle "winsock2.h"
    ∈ out_of (preprocess (<[ "CARES_HAVE_WINSOCK2_H" := [] ]> m) include_build) ∧
  Extern Angle "winsock2.h"
    ∉ out_of (preprocess (delete "CARES_HAVE_WINSOCK2_H" m) include_build).
Proof.
  intros Hg.
  assert (∀ m', ¬ defined m' "__CARES_BUILD_H" →
            ∀ f k h, (Some f, k, h) ∈ flat_map (includes None) ares_build_h →
              Extern k h ∈ build_out m' ↔ defined (build_macros m') f) as Hall.
  { intros m' Hg' f k h. rewrite build_includes, extern_in_build_out.
    destruct (defined_build_macros_sys m') as [Ht Hs].
    rewrite !elem_of_cons, elem_of_nil.
    intros [E|[E|[E|[E|[E|[]]]]]]; injection E as -> -> ->.
    1,2: tauto.
    all: rewrite defined_build_macros_flag
           by (unfold windows_flags; rewrite !elem_of_cons; tauto).
    all: split; [intros [_ [?|[?|[[? ?]|[[? ?]|[? ?]]]]]]; done | tauto]. }
  assert (∀ m', ¬ defined m' "__CARES_BUILD_H" →
            out_of (preprocess m' include_build) = build_out m') as Hout.
  { intros m' Hg'. by rewrite preprocess_build, build_result_first. }
  split; [|split].
  - exists (build_result (PP m [])). split; [apply preprocess_build|].
    rewrite build_result_first by done. simpl.
    split; [by apply Hall|].
    split; [apply Hall; [done|]; rewrite build_includes, !elem_of_cons; tauto|].
    split; [apply Hall; [done|]; rewrite build_includes, !elem_of_cons; tauto|].
    split; [apply Hall; [done|]; rewrite build_includes, !elem_of_cons; tauto|].
    apply defined_build_macros_flag. unfold windows_flags.
    rewrite !elem_of_cons. tauto.
  - rewrite Hout.
    + apply extern_in_build_out. split; [done|]. do 2 right. left.
      split; [done|]. unfold defined. rewrite lookup_insert_eq. eauto.
    + unfold defined in *. by rewrite lookup_insert_ne.
  - rewrite Hout.
    + rewrite extern_in_build_out. unfold defined. rewrite lookup_delete_eq.
      intros [_ [?|[?|[[_ [? ?]]|[[? _]|[? _]]]]]]; done.
    + unfold defined in *. by rewrite lookup_delete_ne.
Qed.

Lemma not_defined_empty n : ¬ defined ∅ n.
Proof. unfold defined. rewrite lookup_empty. by intros [? ?]. Qed.

Lemma C5_witness :
  ¬ defined ∅ "__CARES_BUILD_H" ∧
  Extern Angle "winsock2.h"
    ∈ out_of (preprocess (<[ "CARES_HAVE_WINSOCK2_H" := [] ]> ∅) include_build) ∧
  Extern Angle "winsock2.h"
    ∉ out_of (preprocess (delete "CARES_HAVE_WINSOCK2_H" ∅) include_build).
Proof.
  split; [apply not_defined_empty|].
  apply (C5_includes_follow_flags ∅), not_defined_empty.
Defined.

(* --------------------------------------------------------------------- *)

Lemma strictly_before_last (a b : event) (l : list event) :
  a ∈ l → b ∉ l → strictly_before a b (l ++ [b]).
Proof. intros Ha Hb. exists l, []. done. Qed.

(** C6.  In the first expansion of CAsyncDNSResolver.h the output is: the
    two socket headers of lines 18-19, then the whole expansion of
    ares_build.h (with sys/types.h and sys/socket.h in it), then
    ares_config.h, then ares.h.  ares.h occurs once, at the very end, so
    every event of ares_build.h and the inclusion of ares_config.h stand
    strictly before it. *)
Theorem C6_configuration_before_ares_h (m : macros) :
  clear guards m →
  ∃ st build,
    preprocess m include_shim = Ok st ∧
    preprocess (<[ "C_ASYNC_RESOLVER_H" := [] ]> m) include_build
      = Ok (PP (pp_macros st) build) ∧
    pp_out st =
      [Extern Angle "arpa/inet.h"; Extern Angle "netdb.h"] ++ build ++
      [ares_config_h; ares_h] ∧
    Extern Angle "sys/types.h" ∈ build ∧
    Extern Angle "sys/socket.h" ∈ build ∧
    (∀ e, e ∈ build → strictly_before e ares_h (pp_out st)) ∧
    strictly_before ares_config_h ares_h (pp_out st).
Proof.
  intros Hc.
  set (m' := <[ "C_ASYNC_RESOLVER_H" := [] ]> m).
  assert (¬ defined m' "__CARES_BUILD_H") as Hg.
  { unfold m', defined. rewrite lookup_insert_ne by done.
    apply (clear_not_defined _ _ _ Hc). unfold guards.
    rewrite !elem_of_cons. tauto. }
  exists (shim_result (PP m [])), (build_out m').
  rewrite shim_result_first by done. fold m'. cbn [pp_macros pp_out].
  split; [by rewrite preprocess_shim, shim_result_first|].
  split; [by rewrite preprocess_build, build_result_first|].
  split; [done|].
  split; [apply extern_in_build_out; tauto|].
  split; [apply extern_in_build_out; tauto|].
  assert (ares_h ∉ [Extern Angle "arpa/inet.h"; Extern Angle "netdb.h"] ++
                   build_out m' ++ [ares_config_h]) as Hlast.
  { rewrite !elem_of_app, !elem_of_cons, elem_of_nil.
    pose proof (ares_h_not_in_build m'). unfold ares_h, ares_config_h in *.
    intros [[?|[?|?]]|[?|[?|?]]]; done. }
  assert (∀ (pre mid : list event) (x b : event),
            pre ++ mid ++ [x; b] = (pre ++ mid ++ [x]) ++ [b]) as Hre.
  { intros. by rewrite <- !app_assoc. }
  rewrite Hre.
  split.
  - intros e He. apply strictly_before_last; [|done].
    rewrite !elem_of_app. tauto.
  - apply strictly_before_last; [|done].
    rewrite !elem_of_app, list_elem_of_singleton. tauto.
Qed.

Lemma C6_witness :
  clear guards ∅ ∧
  ∃ st build,
    preprocess ∅ include_shim = Ok st ∧
    preprocess (<[ "C_ASYNC_RESOLVER_H" := [] ]> ∅) include_build
      = Ok (PP (pp_macros st) build) ∧
    pp_out st =
      [Extern Angle "arpa/inet.h"; Extern Angle "netdb.h"] ++ build ++
      [ares_config_h; ares_h] ∧
    Extern Angle "sys/types.h" ∈ build ∧
    Extern Angle "sys/socket.h" ∈ build ∧
    (∀ e, e ∈ build → strictly_before e ares_h (pp_out st)) ∧
    strictly_before ares_config_h ares_h (pp_out st).
Proof.
  split; [apply clear_empty|].
  apply (C6_configuration_before_ares_h ∅), clear_empty.
Defined.

(* --------------------------------------------------------------------- *)

Lemma build_result_guard st :
  defined (pp_macros (build_result st)) "__CARES_BUILD_H".
Proof.
  unfold build_result.
  destruct (decide (defined (pp_macros st) "__CARES_BUILD_H")); [done|].
  unfold defined, build_macros. simpl. by simplify_map_eq.
Qed.

Lemma build_result_keeps st n :
  defined (pp_macros st) n → defined (pp_macros (build_result st)) n.
Proof.
  unfold build_result.
  destruct (decide (defined (pp_macros st) "__CARES_BUILD_H")); [done|].
  unfold defined, build_macros. simpl. intros [b Hb].
  repeat match goal with
         | |- is_Some (<[ ?k := _ ]> _ !! n) =>
             destruct (decide (k = n)) as [->|?];
             [rewrite lookup_insert_eq; eauto | rewrite lookup_insert_ne by done]
         end.
  eauto.
Qed.

Lemma build_result_idem st : build_result (build_result st) = build_result st.
Proof.
  unfold build_result at 1.
  by rewrite decide_True by apply build_result_guard.
Qed.

Lemma shim_result_guard st :
  defined (pp_macros (shim_result st)) "C_ASYNC_RESOLVER_H".
Proof.
  unfold shim_result.
  destruct (decide (defined (pp_macros st) "C_ASYNC_RESOLVER_H")); [done|].
  simpl pp_macros. apply build_result_keeps. simpl.
  unfold defined. rewrite lookup_insert_eq. eauto.
Qed.

Lemma shim_result_idem st : shim_result (shim_result st) = shim_result st.
Proof.
  unfold shim_result at 1.
  by rewrite decide_True by apply shim_result_guard.
Qed.

(** C9.  Both headers open with [#ifndef GUARD] / [#define GUARD] around
    all of their text.  Whatever the state of the translation unit,
    including either header always succeeds, and including it again right
    after changes nothing: no output, no macro.  A unit that includes the
    header twice therefore ends in the same state, with the same events
    and so the same declarations, as one that includes it once. *)
Theorem C9_inclusion_idempotent (st : pp_state) :
  (∃ body, CAsyncDNSResolver_h =
           [IfNDef "C_ASYNC_RESOLVER_H" (Define "C_ASYNC_RESOLVER_H" [] :: body)]) ∧
  (∃ body, ares_build_h =
           [IfNDef "__CARES_BUILD_H" (Define "__CARES_BUILD_H" [] :: body)]) ∧
  Forall
    (fun h =>
       (∃ st', include_at nesting_limit Quote h st = Ok st' ∧
               include_at nesting_limit Quote h st' = Ok st') ∧
       run_group (include_at nesting_limit)
         [Include Quote h; Include Quote h] st
       = run_group (include_at nesting_limit) [Include Quote h] st ∧
       ∀ P T,
         (s2 <- run_group (include_at nesting_limit)
                  [Include Quote h; Include Quote h] st ;;
          check P (pp_out s2) T)
         = (s1 <- run_group (include_at nesting_limit) [Include Quote h] st ;;
            check P (pp_out s1) T))
    ["CAsyncDNSResolver.h"; "ares_build.h"].
Proof.
  split; [eexists; reflexivity|]. split; [eexists; reflexivity|].
  assert (∀ s, include_at nesting_limit Quote "CAsyncDNSResolver.h" s
               = Ok (shim_result s)) as Hs.
  { intros s. unfold nesting_limit. change 200 with (S (S (S 197))).
    apply include_shim_eq. }
  assert (∀ s, include_at nesting_limit Quote "ares_build.h" s
               = Ok (build_result s)) as Hb.
  { intros s. unfold nesting_limit. change 200 with (S (S 198)).
    apply include_build_eq. }
  constructor; [|constructor; [|constructor]].
  - assert (run_group (include_at nesting_limit)
              [Include Quote "CAsyncDNSResolver.h";
               Include Quote "CAsyncDNSResolver.h"] st
            = run_group (include_at nesting_limit)
                [Include Quote "CAsyncDNSResolver.h"] st) as Htwice.
    { rewrite run_group_cons, run_include, Hs, bind_ok.
      rewrite !run_group_single, !run_include, !Hs. by rewrite shim_result_idem. }
    split; [|split; [done|intros; by rewrite Htwice]].
    exists (shim_result st). by rewrite !Hs, shim_result_idem.
  - assert (run_group (include_at nesting_limit)
              [Include Quote "ares_build.h"; Include Quote "ares_build.h"] st
            = run_group (include_at nesting_limit)
                [Include Quote "ares_build.h"] st) as Htwice.
    { rewrite run_group_cons, run_include, Hb, bind_ok.
      rewrite !run_group_single, !run_include, !Hb. by rewrite build_result_idem. }
    split; [|split; [done|intros; by rewrite Htwice]].
    exists (build_result st). by rewrite !Hb, build_result_idem.
Qed.

(* --------------------------------------------------------------------- *)

(** C10.  The [#define]s of ares_build.h are its include guard and four
    configuration macros, CARES_TYPEOF_ARES_SOCKLEN_T,
    CARES_TYPEOF_ARES_SSIZE_T, CARES_HAVE_SYS_TYPES_H and
    CARES_HAVE_SYS_SOCKET_H, each beginning with CARES_; and whatever the
    expansion of the header changes in the macro table of a translation
    unit is the guard or one of these four. *)
Theorem C10_configuration_macros_prefixed :
  flat_map defined_names ares_build_h = "__CARES_BUILD_H" :: cares_macros ∧
  Forall (fun c => String.prefix "CARES_" c = true) cares_macros ∧
  ∀ m st n,
    preprocess m include_build = Ok st →
    pp_macros st !! n ≠ m !! n →
    n = "__CARES_BUILD_H" ∨ (n ∈ cares_macros ∧ String.prefix "CARES_" n = true).
Proof.
  split; [reflexivity|].
  assert (Forall (fun c => String.prefix "CARES_" c = true) cares_macros) as Hp.
  { unfold cares_macros. repeat constructor. }
  split; [done|].
  intros m st n Hpp Hn. rewrite preprocess_build in Hpp. injection Hpp as <-.
  unfold build_result in Hn. simpl in Hn.
  destruct (decide (defined m "__CARES_BUILD_H")); [done|]. simpl in Hn.
  destruct (decide (n ∈ "__CARES_BUILD_H" :: cares_macros)) as [Hin|Hout].
  - apply elem_of_cons in Hin as [->|Hin]; [by left|right].
    split; [done|]. rewrite Forall_forall in Hp. by apply Hp.
  - by rewrite build_macros_other in Hn.
Qed.

(* --------------------------------------------------------------------- *)

Lemma build_out_shape m :
  clear decl_idents m →
  ∃ pre, build_out m = pre ++ [typedef_socklen; typedef_ssize] ∧
         Forall is_inclusion pre.
Proof.
  intros Hc. exists ([Extern Angle "sys/types.h"; Extern Angle "sys/socket.h"]
                     ++ windows_out m).
  split.
  - unfold build_out. by rewrite typedef_lines_clear, <- app_assoc.
  - apply Forall_app. split; [repeat constructor; by eexists _, _|].
    apply Forall_forall. intros e He. apply windows_out_elem in He.
    destruct He as [[-> _]|[[-> _]|[-> _]]]; by eexists _, _.
Qed.

(** C7.  All text of the two headers that is not a directive is the two
    lines 52 and 53 of ares_build.h, and each is a typedef declaration.
    Wherever a translation unit includes CAsyncDNSResolver.h (with the
    identifiers of those two lines not taken by macros), the inclusion
    succeeds, keeps what was already output, keeps every macro defined
    that was, and adds only this: inclusions of other headers, and, the
    first time ares_build.h is reached, the two typedef declarations.  No
    function, object or statement comes out of the shim. *)
Theorem C7_only_declarations (st0 : pp_state) :
  clear decl_idents (pp_macros st0) →
  flat_map text_lines (CAsyncDNSResolver_h ++ ares_build_h) = [line_52; line_53] ∧
  Forall (fun l => is_Some (parse_typedef l)) [line_52; line_53] ∧
  ∃ st pre lines post,
    include_at nesting_limit Quote "CAsyncDNSResolver.h" st0 = Ok st ∧
    pp_out st = pp_out st0 ++ pre ++ lines ++ post ∧
    Forall is_inclusion pre ∧ Forall is_inclusion post ∧
    (lines = [] ∨ lines = [typedef_socklen; typedef_ssize]) ∧
    ∀ n, defined (pp_macros st0) n → defined (pp_macros st) n.
Proof.
  intros Hc. split; [reflexivity|]. split; [repeat constructor; by eexists|].
  exists (shim_result st0).
  assert (include_at nesting_limit Quote "CAsyncDNSResolver.h" st0
          = Ok (shim_result st0)) as ->.
  { unfold nesting_limit. change 200 with (S (S (S 197))). apply include_shim_eq. }
  destruct st0 as [m out]. simpl in Hc. unfold shim_result.
  cbn [pp_macros pp_out].
  destruct (decide (defined m "C_ASYNC_RESOLVER_H")) as [Hg|Hg].
  { exists [], [], []. rewrite !app_nil_r. repeat split; auto. }
  set (m' := <[ "C_ASYNC_RESOLVER_H" := [] ]> m).
  assert (∀ n, defined m n → defined m' n) as Hm'.
  { intros n [b Hb]. unfold m', defined.
    destruct (decide ("C_ASYNC_RESOLVER_H" = n)) as [<-|?].
    - rewrite lookup_insert_eq. eauto.
    - rewrite lookup_insert_ne by done. eauto. }
  assert (Forall is_inclusion [ares_config_h; ares_h]) as Htail.
  { repeat constructor; by eexists _, _. }
  assert (Forall is_inclusion
            [Extern Angle "arpa/inet.h"; Extern Angle "netdb.h"]) as Hhead.
  { repeat constructor; by eexists _, _. }
  unfold build_result. cbn [pp_macros pp_out].
  destruct (decide (defined m' "__CARES_BUILD_H")) as [Hb|Hb]; cbn [pp_macros pp_out].
  - exists [Extern Angle "arpa/inet.h"; Extern Angle "netdb.h"], [],
      [ares_config_h; ares_h].
    split; [done|]. split; [by rewrite <- !app_assoc|].
    repeat split; auto.
  - destruct (build_out_shape m') as (pre & Hpre & Hinc).
    { apply clear_insert; [|done]. unfold decl_idents. not_listed. }
    exists ([Extern Angle "arpa/inet.h"; Extern Angle "netdb.h"] ++ pre),
      [typedef_socklen; typedef_ssize], [ares_config_h; ares_h].
    split; [done|]. rewrite Hpre. split; [by rewrite <- !app_assoc|].
    split; [apply Forall_app; by split|]. split; [done|]. split; [by right|].
    intros n Hn.
    pose proof (build_result_keeps (PP m' []) n (Hm' n Hn)) as Hk.
    unfold build_result in Hk. cbn [pp_macros pp_out] in Hk.
    by rewrite decide_False in Hk.
Qed.

Lemma C7_witness :
  clear decl_idents ∅ ∧
  ∃ st pre lines post,
    include_at nesting_limit Quote "CAsyncDNSResolver.h" (PP ∅ []) = Ok st ∧
    pp_out st = [] ++ pre ++ lines ++ post ∧
    Forall is_inclusion pre ∧ Forall is_inclusion post ∧
    (lines = [] ∨ lines = [typedef_socklen; typedef_ssize]) ∧
    ∀ n, defined ∅ n → defined (pp_macros st) n.
Proof.
  split; [apply clear_empty|].
  apply (C7_only_declarations (PP ∅ [])), clear_empty.
Defined.

(* --------------------------------------------------------------------- *)

Lemma resolve_socklen (T : typedefs) : resolve T [Id "socklen_t"] = T !! "socklen_t".
Proof. unfold resolve. by destruct (T !! "socklen_t"). Qed.

Lemma resolve_ssize (T : typedefs) : resolve T [Id "ssize_t"] = T !! "ssize_t".
Proof. unfold resolve. by destruct (T !! "ssize_t"). Qed.

(** What the checker makes of the two declarations. *)
Lemma check_two_typedefs P (T1 T : typedefs) :
  check P [typedef_socklen; typedef_ssize] T1 = Ok T ↔
  ∃ r1 r2, T1 !! "socklen_t" = Some r1 ∧ T1 !! "ssize_t" = Some r2 ∧
           T = <[ "ares_ssize_t" := r2 ]> (<[ "ares_socklen_t" := r1 ]> T1).
Proof.
  unfold typedef_socklen, typedef_ssize. cbn [check check_event].
  rewrite parse_socklen, parse_ssize, resolve_socklen.
  destruct (T1 !! "socklen_t") as [r1|] eqn:H1; cbn [bind].
  - rewrite resolve_ssize, lookup_insert_ne by done.
    destruct (T1 !! "ssize_t") as [r2|] eqn:H2; cbn [bind].
    + split; [intros [= <-]; eauto|]. by intros (? & ? & [= <-] & [= <-] & ->).
    + split; [done|]. by intros (? & ? & _ & ? & _).
  - split; [done|]. by intros (? & ? & ? & _).
Qed.

Lemma is_ok_inv {A} (r : result A) : is_ok r = true → ∃ a, r = Ok a.
Proof. destruct r; [eauto|discriminate]. Defined.

Lemma compile_build P m :
  ¬ defined m "__CARES_BUILD_H" →
  compile P m include_build = check P (build_out m) ∅.
Proof.
  intros Hg. unfold compile.
  by rewrite preprocess_build, build_result_first.
Qed.

(** C2.  On every platform on which the first expansion of ares_build.h
    compiles (the identifiers of its typedef lines not taken by macros),
    the two declarations that come out are [typedef socklen_t
    ares_socklen_t;] and [typedef ssize_t ares_ssize_t;], and in the
    resulting scope [ares_socklen_t] stands for exactly the type the
    platform's headers gave [socklen_t], and [ares_ssize_t] for the type
    they gave [ssize_t]. *)
Theorem C2_aliases_of_platform_types (P : platform) (m : macros) (T : typedefs) :
  ¬ defined m "__CARES_BUILD_H" → clear decl_idents m →
  compile P m include_build = Ok T →
  typedef_socklen ∈ out_of (preprocess m include_build) ∧
  typedef_ssize ∈ out_of (preprocess m include_build) ∧
  (∀ l, Line l ∈ out_of (preprocess m include_build) →
        Line l = typedef_socklen ∨ Line l = typedef_ssize) ∧
  (∃ r, T !! "socklen_t" = Some r ∧ T !! "ares_socklen_t" = Some r) ∧
  (∃ r, T !! "ssize_t" = Some r ∧ T !! "ares_ssize_t" = Some r).
Proof.
  intros Hg Hc Hcomp.
  rewrite compile_build in Hcomp by done.
  rewrite preprocess_build, build_result_first by done. simpl out_of.
  destruct (build_out_shape m Hc) as (pre & Hpre & Hinc).
  rewrite Hpre in *.
  split; [rewrite elem_of_app, !elem_of_cons; tauto|].
  split; [rewrite elem_of_app, !elem_of_cons; tauto|].
  split.
  { intros l. rewrite elem_of_app, !elem_of_cons, elem_of_nil.
    intros [Hin|[?|[?|[]]]]; [|tauto..].
    rewrite Forall_forall in Hinc. by destruct (Hinc _ Hin) as (? & ? & ?). }
  apply check_app in Hcomp as (T1 & _ & H2).
  apply check_two_typedefs in H2 as (r1 & r2 & Hs & Hz & ->).
  split; [exists r1|exists r2]; by simplify_map_eq.
Qed.

Lemma C2_witness :
  ¬ defined ∅ "__CARES_BUILD_H" ∧ clear decl_idents ∅ ∧
  (∃ T, compile lp64_platform ∅ include_build = Ok T ∧
        (∃ r, T !! "socklen_t" = Some r ∧ T !! "ares_socklen_t" = Some r) ∧
        (∃ r, T !! "ssize_t" = Some r ∧ T !! "ares_ssize_t" = Some r)).
Proof.
  split; [apply not_defined_empty|]. split; [apply clear_empty|].
  destruct (is_ok_inv (compile lp64_platform ∅ include_build)) as [T E];
    [vm_compute; reflexivity|].
  exists T. split; [exact E|].
  apply (C2_aliases_of_platform_types lp64_platform ∅ T);
    [apply not_defined_empty | apply clear_empty | exact E].
Defined.

(* --------------------------------------------------------------------- *)

Lemma build_out_posix m :
  clear decl_idents m → clear windows_flags m →
  build_out m = [Extern Angle "sys/types.h"; Extern Angle "sys/socket.h";
                 typedef_socklen; typedef_ssize].
Proof.
  intros Hd Hw. unfold build_out.
  by rewrite typedef_lines_clear, windows_out_clear.
Qed.

(** C4.  What [ares_socklen_t] and [ares_ssize_t] stand for is read off
    the target platform when the unit is compiled: on every platform on
    which the first expansion of ares_build.h compiles (no Windows flag
    predefined, the identifiers of the typedef lines not taken by macros),
    the two aliases have the underlying types that the platform's
    sys/types.h and sys/socket.h give [socklen_t] and [ssize_t].  Two
    platforms can differ in both: on the LP64 one the aliases are
    [unsigned int] and [long], on the ILP32 one [int] and [int]. *)
Theorem C4_representation_per_platform (m : macros) :
  ¬ defined m "__CARES_BUILD_H" → clear decl_idents m → clear windows_flags m →
  (∀ (P : platform) (T : typedefs),
     compile P m include_build = Ok T →
     ∃ d1 d2,
       P !! "sys/types.h" = Some d1 ∧ P !! "sys/socket.h" = Some d2 ∧
       is_Some (T !! "ares_socklen_t") ∧ is_Some (T !! "ares_ssize_t") ∧
       T !! "ares_socklen_t" = declare d2 (declare d1 ∅) !! "socklen_t" ∧
       T !! "ares_ssize_t" = declare d2 (declare d1 ∅) !! "ssize_t") ∧
  underlying (compile lp64_platform m include_build) "ares_socklen_t"
    = Some [Id "unsigned"; Id "int"] ∧
  underlying (compile ilp32_platform m include_build) "ares_socklen_t"
    = Some [Id "int"] ∧
  underlying (compile lp64_platform m include_build) "ares_ssize_t"
    = Some [Id "long"] ∧
  underlying (compile ilp32_platform m include_build) "ares_ssize_t"
    = Some [Id "int"] ∧
  underlying (compile lp64_platform m include_build) "ares_socklen_t"
    ≠ underlying (compile ilp32_platform m include_build) "ares_socklen_t" ∧
  underlying (compile lp64_platform m include_build) "ares_ssize_t"
    ≠ underlying (compile ilp32_platform m include_build) "ares_ssize_t".
Proof.
  intros Hg Hd Hw.
  assert (∀ P, compile P m include_build
               = check P [Extern Angle "sys/types.h"; Extern Angle "sys/socket.h";
                          typedef_socklen; typedef_ssize] ∅) as Hcomp.
  { intros P. by rewrite compile_build, build_out_posix. }
  split.
  { intros P T HT. rewrite Hcomp in HT.
    change [Extern Angle "sys/types.h"; Extern Angle "sys/socket.h";
            typedef_socklen; typedef_ssize]
      with ([Extern Angle "sys/types.h"; Extern Angle "sys/socket.h"] ++
            [typedef_socklen; typedef_ssize]) in HT.
    apply check_app in HT as (T1 & H1 & H2).
    cbn [check check_event] in H1.
    destruct (P !! "sys/types.h") as [d1|]; [|done]. cbn [bind] in H1.
    destruct (P !! "sys/socket.h") as [d2|]; [|done]. cbn [bind] in H1.
    injection H1 as <-.
    apply check_two_typedefs in H2 as (r1 & r2 & Hs & Hz & ->).
    exists d1, d2. rewrite Hs, Hz.
    repeat split; try (by simplify_map_eq); eexists; by simplify_map_eq. }
  rewrite !Hcomp.
  assert (underlying (check lp64_platform
            [Extern Angle "sys/types.h"; Extern Angle "sys/socket.h";
             typedef_socklen; typedef_ssize] ∅) "ares_socklen_t"
          = Some [Id "unsigned"; Id "int"]) as -> by (vm_compute; reflexivity).
  assert (underlying (check ilp32_platform
            [Extern Angle "sys/types.h"; Extern Angle "sys/socket.h";
             typedef_socklen; typedef_ssize] ∅) "ares_socklen_t"
          = Some [Id "int"]) as -> by (vm_compute; reflexivity).
  assert (underlying (check lp64_platform
            [Extern Angle "sys/types.h"; Extern Angle "sys/socket.h";
             typedef_socklen; typedef_ssize] ∅) "ares_ssize_t"
          = Some [Id "long"]) as -> by (vm_compute; reflexivity).
  assert (underlying (check ilp32_platform
            [Extern Angle "sys/types.h"; Extern Angle "sys/socket.h";
             typedef_socklen; typedef_ssize] ∅) "ares_ssize_t"
          = Some [Id "int"]) as -> by (vm_compute; reflexivity).
  repeat split; done.
Qed.

Lemma C4_witness :
  ¬ defined ∅ "__CARES_BUILD_H" ∧ clear decl_idents ∅ ∧ clear windows_flags ∅ ∧
  underlying (compile lp64_platform ∅ include_build) "ares_socklen_t"
    ≠ underlying (compile ilp32_platform ∅ include_build) "ares_socklen_t" ∧
  underlying (compile lp64_platform ∅ include_build) "ares_ssize_t"
    ≠ underlying (compile ilp32_platform ∅ include_build) "ares_ssize_t".
Proof.
  split; [apply not_defined_empty|].
  split; [apply clear_empty|]. split; [apply clear_empty|].
  apply (C4_representation_per_platform ∅);
    [apply not_defined_empty | apply clear_empty | apply clear_empty].
Defined.

(* --------------------------------------------------------------------- *)
(** ** Failure *)

Example flag_headers_eq :
  flag_headers =
  [ ("CARES_HAVE_SYS_TYPES_H", "sys/types.h");
    ("CARES_HAVE_SYS_SOCKET_H", "sys/socket.h");
    ("CARES_HAVE_WINSOCK2_H", "winsock2.h");
    ("CARES_HAVE_WS2TCPIP_H", "ws2tcpip.h");
    ("CARES_HAVE_WINDOWS_H", "windows.h") ].
Proof. reflexivity. Qed.

Example unconditional_headers_eq :
  unconditional_headers =
  ["arpa/inet.h"; "netdb.h"; "ares_config.h"; "../c-ares/include/ares.h"].
Proof. reflexivity. Qed.

Lemma flag_header_in_build m f h :
  (f, h) ∈ flag_headers →
  Extern Angle h ∈ build_out m ↔ defined (build_macros m) f.
Proof.
  rewrite flag_headers_eq, extern_in_build_out.
  destruct (defined_build_macros_sys m) as [Ht Hs].
  rewrite !elem_of_cons, elem_of_nil.
  intros [E|[E|[E|[E|[E|[]]]]]]; injection E as -> ->.
  1,2: tauto.
  all: rewrite defined_build_macros_flag
         by (unfold windows_flags; rewrite !elem_of_cons; tauto).
  all: split; [intros [_ [?|[?|[[? ?]|[[? ?]|[? ?]]]]]]; done | tauto].
Qed.

Lemma extern_in_build_flag m k h :
  Extern k h ∈ build_out m →
  k = Angle ∧ ∃ f, (f, h) ∈ flag_headers ∧ defined (build_macros m) f.
Proof.
  intros Hin. pose proof Hin as Hin'.
  apply extern_in_build_out in Hin' as [-> Hcase]. split; [done|].
  assert (∀ f, (f, h) ∈ flag_headers →
               (f, h) ∈ flag_headers ∧ defined (build_macros m) f) as Hf.
  { intros f Hfh. split; [done|]. by apply (flag_header_in_build m f h). }
  rewrite flag_headers_eq in Hf.
  destruct Hcase as [->|[->|[[-> _]|[[-> _]|[-> _]]]]];
    eexists; rewrite flag_headers_eq; apply Hf; rewrite !elem_of_cons; tauto.
Qed.

(** Setting the guard of CAsyncDNSResolver.h moves no flag and no type
    macro of ares_build.h. *)
Lemma build_macros_shim_guard m n :
  n ≠ "C_ASYNC_RESOLVER_H" →
  build_macros (<[ "C_ASYNC_RESOLVER_H" := [] ]> m) !! n = build_macros m !! n.
Proof.
  intros Hn. unfold build_macros.
  repeat match goal with
         | |- <[ ?k := _ ]> _ !! n = <[ ?k := _ ]> _ !! n =>
             destruct (decide (k = n)) as [->|?];
             [by rewrite !lookup_insert_eq | rewrite !(lookup_insert_ne _ k n) by done]
         end.
  by rewrite lookup_insert_ne.
Qed.

Lemma flag_headers_not_guard f h : (f, h) ∈ flag_headers → f ≠ "C_ASYNC_RESOLVER_H".
Proof.
  rewrite flag_headers_eq, !elem_of_cons, elem_of_nil.
  intros [E|[E|[E|[E|[E|[]]]]]]; injection E as -> ->; done.
Qed.

(** Inclusions of headers the platform has always pass the checker, and
    bring the names those headers declare into scope. *)
Lemma check_inclusions P evs (T0 : typedefs) :
  Forall is_inclusion evs →
  (∀ k h, Extern k h ∈ evs → is_Some (P !! h)) →
  ∃ T, check P evs T0 = Ok T ∧
       (∀ n, is_Some (T0 !! n) → is_Some (T !! n)) ∧
       (∀ k h d n, Extern k h ∈ evs → P !! h = Some d → n ∈ d.*1 →
                   is_Some (T !! n)).
Proof.
  revert T0. induction evs as [|e evs IH]; intros T0 Hinc Hav.
  - exists T0. split; [done|]. split; [done|].
    intros k h d n Hin. by apply elem_of_nil in Hin.
  - apply Forall_cons in Hinc as [(k0 & h0 & ->) Hinc].
    destruct (Hav k0 h0) as [d0 Hd0]; [left|].
    destruct (IH (declare d0 T0) Hinc) as (T & HT & Hkeep & Hnew).
    { intros k h Hin. apply (Hav k h). by right. }
    exists T. cbn [check check_event]. rewrite Hd0. cbn [bind].
    split; [done|]. split.
    + intros n Hn. by apply Hkeep, declare_lookup.
    + intros k h d n Hin Hd Hn. apply elem_of_cons in Hin as [E|Hin].
      * injection E as -> ->. apply Hkeep. rewrite Hd0 in Hd. injection Hd as ->.
        by apply declare_declared.
      * by apply (Hnew k h d n).
Qed.

(** The checker has two complaints about inclusions and these two
    typedefs: a header it cannot find, a type it does not know. *)
Lemma check_errors P evs (T0 : typedefs) e :
  Forall (fun ev => is_inclusion ev ∨ ev = typedef_socklen ∨ ev = typedef_ssize) evs →
  check P evs T0 = Err e →
  (∃ h, e = MissingHeader h ∧ P !! h = None) ∨ (∃ ty, e = UndefinedType ty).
Proof.
  revert T0. induction evs as [|ev evs IH]; intros T0 Hall; [done|].
  apply Forall_cons in Hall as [Hev Hall]. cbn [check].
  destruct (check_event P T0 ev) as [T1|e1] eqn:He; cbn [bind].
  - by apply IH.
  - intros [= <-]. destruct Hev as [(k & h & ->) | [-> | ->]].
    + cbn [check_event] in He. destruct (P !! h) eqn:Hh; [done|].
      injection He as <-. left. eauto.
    + unfold typedef_socklen in He. cbn [check_event] in He.
      rewrite parse_socklen in He.
      destruct (resolve T0 [Id "socklen_t"]); [done|].
      injection He as <-. right. eauto.
    + unfold typedef_ssize in He. cbn [check_event] in He.
      rewrite parse_ssize in He.
      destruct (resolve T0 [Id "ssize_t"]); [done|].
      injection He as <-. right. eauto.
Qed.

Lemma shim_events m :
  clear guards m → clear decl_idents m →
  ∃ pre,
    build_out (<[ "C_ASYNC_RESOLVER_H" := [] ]> m)
      = pre ++ [typedef_socklen; typedef_ssize] ∧
    Forall is_inclusion pre ∧
    ∀ P, compile P m include_shim =
         check P (([Extern Angle "arpa/inet.h"; Extern Angle "netdb.h"] ++ pre) ++
                  [typedef_socklen; typedef_ssize] ++ [ares_config_h; ares_h]) ∅.
Proof.
  intros Hg Hd.
  destruct (build_out_shape (<[ "C_ASYNC_RESOLVER_H" := [] ]> m)) as (pre & Hpre & Hinc).
  { apply clear_insert; [|done]. unfold decl_idents. not_listed. }
  exists pre. split; [done|]. split; [done|].
  intros P. unfold compile.
  rewrite preprocess_shim, shim_result_first by done. cbn [bind pp_out].
  by rewrite Hpre, <- !app_assoc.
Qed.

Lemma all_declarations pre :
  Forall is_inclusion pre →
  Forall (fun ev => is_inclusion ev ∨ ev = typedef_socklen ∨ ev = typedef_ssize)
    (pre ++ [typedef_socklen; typedef_ssize]).
Proof.
  intros Hpre. apply Forall_app. split.
  - eapply Forall_impl; [exact Hpre|]. intros; by left.
  - repeat constructor; tauto.
Qed.

(** From the flagged headers to the scope in which the two typedefs are
    checked. *)
Lemma consistent_scope P m m' pre evs0 (T0 : typedefs) :
  (∀ n, n ≠ "C_ASYNC_RESOLVER_H" → build_macros m' !! n = build_macros m !! n) →
  build_out m' = pre ++ [typedef_socklen; typedef_ssize] →
  Forall is_inclusion pre → Forall is_inclusion evs0 →
  (∀ k h, Extern k h ∈ evs0 → is_Some (P !! h)) →
  consistent P m →
  ∃ T, check P ((evs0 ++ pre) ++ [typedef_socklen; typedef_ssize]) T0 = Ok T.
Proof.
  intros Hsame Hpre Hinc Hinc0 Hav0 [Hflags Htypes].
  assert (∀ f h, (f, h) ∈ flag_headers →
                 defined (build_macros m') f ↔ defined (build_macros m) f) as Hdef.
  { intros f h Hfh. unfold defined.
    by rewrite Hsame by (by apply (flag_headers_not_guard f h)). }
  assert (∀ k h, Extern k h ∈ pre → is_Some (P !! h)) as Hav.
  { intros k h Hin.
    destruct (extern_in_build_flag m' k h) as (_ & f & Hfh & Hf).
    { rewrite Hpre. apply elem_of_app. by left. }
    apply (Hflags f h Hfh). by apply (Hdef f h). }
  destruct (check_inclusions P (evs0 ++ pre) T0) as (T1 & HT1 & _ & Hnew).
  { by apply Forall_app. }
  { intros k h. rewrite elem_of_app. intros [?|?]; [by apply (Hav0 k)|by apply (Hav k)]. }
  assert (∀ X t, X ∈ typeof_macros → build_macros m !! X = Some [Id t] →
                 is_Some (T1 !! t)) as Hscope.
  { intros X t HX Hbody.
    destruct (Htypes X t HX Hbody) as (f & h & d & Hfh & Hf & Hd & Ht).
    apply (Hnew Angle h d t); [|done..].
    apply elem_of_app. right.
    assert (Extern Angle h ∈ build_out m') as Hin.
    { apply (flag_header_in_build m' f h Hfh). by apply (Hdef f h). }
    rewrite Hpre in Hin. apply elem_of_app in Hin as [?|Hin]; [done|].
    rewrite !elem_of_cons, elem_of_nil in Hin. by destruct Hin as [?|[?|[]]]. }
  destruct (Hscope "CARES_TYPEOF_ARES_SOCKLEN_T" "socklen_t") as [r1 Hr1].
  { unfold typeof_macros. rewrite !elem_of_cons. tauto. }
  { unfold build_macros. by simplify_map_eq. }
  destruct (Hscope "CARES_TYPEOF_ARES_SSIZE_T" "ssize_t") as [r2 Hr2].
  { unfold typeof_macros. rewrite !elem_of_cons. tauto. }
  { unfold build_macros. by simplify_map_eq. }
  eexists. apply check_app. exists T1. split; [done|].
  apply check_two_typedefs. by exists r1, r2.
Qed.

Lemma consistent_posix P m d1 d2 :
  clear windows_flags m →
  P !! "sys/types.h" = Some d1 → P !! "sys/socket.h" = Some d2 →
  "ssize_t" ∈ d1.*1 → "socklen_t" ∈ d2.*1 →
  consistent P m.
Proof.
  intros Hw H1 H2 Hz Hs.
  apply clear_windows_flags in Hw as (Hw1 & Hw2 & Hw3).
  destruct (defined_build_macros_sys m) as [Ht Hk].
  split.
  - intros f h. rewrite flag_headers_eq, !elem_of_cons, elem_of_nil.
    intros [E|[E|[E|[E|[E|[]]]]]]; injection E as -> ->.
    1,2: intros _; eauto.
    all: rewrite defined_build_macros_flag
           by (unfold windows_flags; rewrite !elem_of_cons; tauto); done.
  - intros X t. unfold typeof_macros. rewrite !elem_of_cons, elem_of_nil.
    intros [-> | [-> | []]]; unfold build_macros at 1; simplify_map_eq;
      intros [= <-].
    + exists "CARES_HAVE_SYS_SOCKET_H", "sys/socket.h", d2.
      rewrite flag_headers_eq, !elem_of_cons. tauto.
    + exists "CARES_HAVE_SYS_TYPES_H", "sys/types.h", d1.
      rewrite flag_headers_eq, !elem_of_cons. tauto.
Qed.

(** C8 (as amended).  With the identifiers of the typedef lines not taken
    by macros, the first inclusion of the shim fails, if at all, when the
    unit is compiled, on a header that cannot be found or a type that is
    not declared; it never fails when the platform-detection macros agree
    with the platform and the headers CAsyncDNSResolver.h includes under
    no flag (arpa/inet.h, netdb.h, ares_config.h, ares.h) are there; and
    ares_build.h alone never fails when the macros agree with the
    platform.  What comes out is inclusions and two typedefs only. *)
Theorem C8_failure_only_at_compile_time (P : platform) (m : macros) :
  clear guards m → clear decl_idents m →
  (∀ e, compile P m include_shim = Err e →
        (∃ h, e = MissingHeader h ∧ P !! h = None) ∨ (∃ ty, e = UndefinedType ty)) ∧
  (∀ e, compile P m include_build = Err e →
        (∃ h, e = MissingHeader h ∧ P !! h = None) ∨ (∃ ty, e = UndefinedType ty)) ∧
  (consistent P m → ∃ T, compile P m include_build = Ok T) ∧
  (consistent P m → unconditional_available P →
   ∃ T, compile P m include_shim = Ok T) ∧
  (∀ e, compile P m include_shim = Err e →
        ¬ (consistent P m ∧ unconditional_available P)) ∧
  (∃ st, preprocess m include_shim = Ok st ∧
         Forall (fun ev => is_inclusion ev ∨ ev = typedef_socklen ∨ ev = typedef_ssize)
                (pp_out st)).
Proof.
  intros Hg Hd.
  assert (¬ defined m "__CARES_BUILD_H") as Hb.
  { apply (clear_not_defined _ _ _ Hg). unfold guards. rewrite !elem_of_cons. tauto. }
  destruct (shim_events m Hg Hd) as (pre & Hpre & Hinc & Hshim).
  destruct (build_out_shape m Hd) as (pre0 & Hpre0 & Hinc0).
  assert (Forall is_inclusion [Extern Angle "arpa/inet.h"; Extern Angle "netdb.h"])
    as Hhead by (repeat constructor; by eexists _, _).
  assert (Forall is_inclusion [ares_config_h; ares_h])
    as Htail by (repeat constructor; by eexists _, _).
  assert (consistent P m → unconditional_available P →
          ∃ T, compile P m include_shim = Ok T) as Hok.
  { intros Hcons Hun. unfold unconditional_available in Hun.
    rewrite unconditional_headers_eq, Forall_forall in Hun.
    rewrite Hshim.
    destruct (consistent_scope P m (<[ "C_ASYNC_RESOLVER_H" := [] ]> m) pre
                [Extern Angle "arpa/inet.h"; Extern Angle "netdb.h"] ∅)
      as (T1 & HT1); [apply build_macros_shim_guard|done..| |done|].
    { intros k h. rewrite !elem_of_cons, elem_of_nil.
      intros [E|[E|[]]]; injection E as -> ->; apply Hun;
        rewrite !elem_of_cons; tauto. }
    destruct (check_inclusions P [ares_config_h; ares_h] T1 Htail) as (T & HT & _).
    { intros k h. unfold ares_config_h, ares_h. rewrite !elem_of_cons, elem_of_nil.
      intros [E|[E|[]]]; injection E as -> ->; apply Hun;
        rewrite !elem_of_cons; tauto. }
    exists T. rewrite app_assoc. apply check_app. eauto. }
  split; [|split; [|split; [|split; [done|split]]]].
  - intros e. rewrite Hshim, app_assoc. apply check_errors.
    apply Forall_app. split.
    + apply all_declarations. by apply Forall_app.
    + eapply Forall_impl; [exact Htail|]. intros; by left.
  - intros e. rewrite compile_build, Hpre0 by done.
    by apply check_errors, all_declarations.
  - intros Hcons. rewrite compile_build by done.
    destruct (consistent_scope P m m pre0 [] ∅) as (T & HT); try done.
    + intros k h Hin. by apply elem_of_nil in Hin.
    + exists T. by rewrite Hpre0.
  - intros e He [Hcons Hun]. destruct (Hok Hcons Hun) as [T HT]. congruence.
  - exists (shim_result (PP m [])). split; [apply preprocess_shim|].
    rewrite shim_result_first, Hpre by done. cbn [pp_out].
    apply Forall_app. split; [eapply Forall_impl; [exact Hhead|]; intros; by left|].
    apply Forall_app. split; [by apply all_declarations|].
    eapply Forall_impl; [exact Htail|]. intros; by left.
Qed.

Lemma lp64_consistent : consistent lp64_platform ∅.
Proof.
  apply (consistent_posix lp64_platform ∅
           [("size_t", [Id "unsigned"; Id "long"]); ("ssize_t", [Id "long"])]
           [("socklen_t", [Id "unsigned"; Id "int"])]).
  - apply clear_empty.
  - vm_compute. reflexivity.
  - vm_compute. reflexivity.
  - simpl. rewrite !elem_of_cons. tauto.
  - simpl. rewrite !elem_of_cons. tauto.
Defined.

Lemma lp64_unconditional : unconditional_available lp64_platform.
Proof.
  unfold unconditional_available. rewrite unconditional_headers_eq.
  apply Forall_cons_2; [eexists; vm_compute; reflexivity|].
  apply Forall_cons_2; [eexists; vm_compute; reflexivity|].
  apply Forall_cons_2; [eexists; vm_compute; reflexivity|].
  apply Forall_cons_2; [eexists; vm_compute; reflexivity|].
  apply Forall_nil_2.
Defined.

Lemma C8_witness :
  clear guards ∅ ∧ clear decl_idents ∅ ∧
  consistent lp64_platform ∅ ∧ unconditional_available lp64_platform ∧
  ∃ T, compile lp64_platform ∅ include_shim = Ok T.
Proof.
  split; [apply clear_empty|]. split; [apply clear_empty|].
  split; [apply lp64_consistent|]. split; [apply lp64_unconditional|].
  apply (C8_failure_only_at_compile_time lp64_platform ∅);
    [apply clear_empty | apply clear_empty | apply lp64_consistent
    | apply lp64_unconditional].
Defined.

(** C8 as first stated does not hold: on a target that has sys/types.h
    and sys/socket.h with [ssize_t] and [socklen_t] in them, so that every
    platform-detection macro agrees with it, but that has no netdb.h, the
    shim fails on line 19 of CAsyncDNSResolver.h. *)
Lemma C8_counterexample :
  clear guards ∅ ∧ clear decl_idents ∅ ∧
  consistent no_netdb_platform ∅ ∧
  compile no_netdb_platform ∅ include_shim = Err (MissingHeader "netdb.h").
Proof.
  split; [apply clear_empty|]. split; [apply clear_empty|]. split.
  - apply (consistent_posix no_netdb_platform ∅
             [("size_t", [Id "unsigned"; Id "long"]); ("ssize_t", [Id "long"])]
             [("socklen_t", [Id "unsigned"; Id "int"])]).
    + apply clear_empty.
    + vm_compute. reflexivity.
    + vm_compute. reflexivity.
    + simpl. rewrite !elem_of_cons. tauto.
    + simpl. rewrite !elem_of_cons. tauto.
  - vm_compute. reflexivity.
Qed.

(* ===================================================================== *)
(** ** Further properties of the two headers *)
(* ===================================================================== *)

Lemma flagged_sublist m flag hdr : flagged m flag hdr `sublist_of` [Extern Angle hdr].
Proof.
  unfold flagged. destruct (decide (defined m flag)); [done|apply sublist_nil_l].
Qed.

Lemma build_out_in_order m :
  clear decl_idents m → build_out m `sublist_of` build_order.
Proof.
  intros Hd. unfold build_out, build_order, windows_out.
  rewrite typedef_lines_clear by done.
  apply (sublist_app [_; _] [_; _]); [done|].
  apply (sublist_app _ [_; _; _]); [|done].
  apply (sublist_app _ [_]); [apply flagged_sublist|].
  apply (sublist_app _ [_]); apply flagged_sublist.
Qed.

(** X1.  Whatever is predefined (the identifiers of the typedef lines
    apart), what the two headers put out follows the order of their source
    lines: the output of ares_build.h is a subsequence of sys/types.h,
    sys/socket.h, winsock2.h, ws2tcpip.h, windows.h, the [ares_socklen_t]
    typedef, the [ares_ssize_t] typedef, and the output of
    CAsyncDNSResolver.h a subsequence of arpa/inet.h, netdb.h, that list,
    ares_config.h, ares.h, in which nothing occurs twice.  So every header
    that is included at all is included before the typedefs that need it,
    and winsock2.h never comes after windows.h. *)
Theorem X1_output_in_source_order (m : macros) :
  clear decl_idents m →
  NoDup shim_order ∧
  ∃ sb ss,
    preprocess m include_build = Ok sb ∧
    preprocess m include_shim = Ok ss ∧
    pp_out sb `sublist_of` build_order ∧
    pp_out ss `sublist_of` shim_order.
Proof.
  intros Hd. split.
  { apply (bool_decide_unpack (NoDup shim_order)). vm_compute. exact I. }
  exists (build_result (PP m [])), (shim_result (PP m [])).
  split; [apply preprocess_build|]. split; [apply preprocess_shim|].
  assert (∀ m' out, clear decl_idents m' →
            pp_out (build_result (PP m' out)) `sublist_of` out ++ build_order) as Hb.
  { intros m' out Hd'. unfold build_result. cbn [pp_macros pp_out].
    destruct (decide (defined m' "__CARES_BUILD_H")); cbn [pp_out].
    - apply sublist_inserts_r. done.
    - apply sublist_app; [done|]. by apply build_out_in_order. }
  split; [apply (Hb m [] Hd)|].
  unfold shim_result. cbn [pp_macros pp_out].
  destruct (decide (defined m "C_ASYNC_RESOLVER_H")); cbn [pp_out];
    [apply sublist_nil_l|].
  unfold shim_order. rewrite (app_assoc [_; _]).
  apply sublist_app; [|done].
  apply (Hb _ [_; _]). apply clear_insert; [|done].
  unfold decl_idents. not_listed.
Qed.

Lemma X1_witness :
  clear decl_idents ∅ ∧
  ∃ sb ss,
    preprocess ∅ include_build = Ok sb ∧
    preprocess ∅ include_shim = Ok ss ∧
    pp_out sb `sublist_of` build_order ∧
    pp_out ss `sublist_of` shim_order.
Proof.
  split; [apply clear_empty|].
  apply (X1_output_in_source_order ∅), clear_empty.
Defined.

(* --------------------------------------------------------------------- *)

(** X2.  How the first inclusion of ares_build.h ends on a target with no
    Windows flag predefined (identifiers of the typedef lines not taken by
    macros), case by case and in this order: without sys/types.h the
    error is that missing header; else without sys/socket.h, that one;
    else, if the two headers leave [socklen_t] undeclared, that type is
    undefined; else, if they leave [ssize_t] undeclared, that one; and
    otherwise the unit compiles, the scope being what the two headers
    declare plus the two aliases. *)
Theorem X2_build_outcome (P : platform) (m : macros) :
  ¬ defined m "__CARES_BUILD_H" → clear decl_idents m → clear windows_flags m →
  compile P m include_build =
  match P !! "sys/types.h" with
  | None => Err (MissingHeader "sys/types.h")
  | Some d1 =>
      match P !! "sys/socket.h" with
      | None => Err (MissingHeader "sys/socket.h")
      | Some d2 =>
          let T1 : typedefs := declare d2 (declare d1 ∅) in
          match T1 !! "socklen_t" with
          | None => Err (UndefinedType [Id "socklen_t"])
          | Some r1 =>
              match T1 !! "ssize_t" with
              | None => Err (UndefinedType [Id "ssize_t"])
              | Some r2 =>
                  Ok (<[ "ares_ssize_t" := r2 ]> (<[ "ares_socklen_t" := r1 ]> T1))
              end
          end
      end
  end.
Proof.
  intros Hg Hd Hw. rewrite compile_build, build_out_posix by done.
  unfold typedef_socklen, typedef_ssize. cbn [check check_event].
  destruct (P !! "sys/types.h") as [d1|]; cbn [bind]; [|done].
  destruct (P !! "sys/socket.h") as [d2|]; cbn [bind]; [|done].
  rewrite parse_socklen, parse_ssize, resolve_socklen. cbn zeta.
  destruct (declare d2 (declare d1 ∅) !! "socklen_t") as [r1|]; cbn [bind]; [|done].
  rewrite resolve_ssize, lookup_insert_ne by done.
  by destruct (declare d2 (declare d1 ∅) !! "ssize_t") as [r2|].
Qed.

Lemma X2_witness :
  ¬ defined ∅ "__CARES_BUILD_H" ∧ clear decl_idents ∅ ∧ clear windows_flags ∅ ∧
  compile (delete "sys/socket.h" lp64_platform) ∅ include_build
    = Err (MissingHeader "sys/socket.h").
Proof.
  split; [apply not_defined_empty|].
  split; [apply clear_empty|]. split; [apply clear_empty|].
  rewrite (X2_build_outcome (delete "sys/socket.h" lp64_platform) ∅);
    [ vm_compute; reflexivity
    | apply not_defined_empty | apply clear_empty | apply clear_empty ].
Defined.

(* --------------------------------------------------------------------- *)




(* --------------------------------------------------------------------- *)

Lemma occurrences_app e l1 l2 :
  occurrences e (l1 ++ l2) = occurrences e l1 + occurrences e l2.
Proof. unfold occurrences. by rewrite filter_app, length_app. Qed.

Lemma occurrences_inclusions t l :
  Forall is_inclusion l → occurrences (Line t) l = 0.
Proof.
  unfold occurrences. induction 1 as [|e l (k & h & ->) _ IH]; [done|].
  by rewrite filter_cons_False.
Qed.

Lemma occurrences_build_out m e :
  clear decl_idents m → e = typedef_socklen ∨ e = typedef_ssize →
  occurrences e (build_out m) = 1.
Proof.
  intros Hd He. destruct (build_out_shape m Hd) as (pre & -> & Hinc).
  rewrite occurrences_app.
  destruct He as [-> | ->]; unfold typedef_socklen, typedef_ssize;
    rewrite occurrences_inclusions by done; reflexivity.
Qed.

Lemma clear_decl_build_macros m :
  clear decl_idents m → clear decl_idents (build_macros m).
Proof.
  apply clear_build_macros. intros n. unfold decl_idents.
  rewrite !elem_of_cons, elem_of_nil.
  intros [-> | [-> | [-> | [-> | [-> | []]]]]]; simpl; not_listed.
Qed.

Lemma build_result_occurrences st :
  clear decl_idents (pp_macros st) →
  (∀ e, e = typedef_socklen ∨ e = typedef_ssize →
        occurrences e (pp_out st) =
        if decide (defined (pp_macros st) "__CARES_BUILD_H") then 1 else 0) →
  clear decl_idents (pp_macros (build_result st)) ∧
  defined (pp_macros (build_result st)) "__CARES_BUILD_H" ∧
  ∀ e, e = typedef_socklen ∨ e = typedef_ssize →
       occurrences e (pp_out (build_result st)) = 1.
Proof.
  intros Hd Hocc. split; [|split; [apply build_result_guard|]].
  - unfold build_result.
    destruct (decide (defined (pp_macros st) "__CARES_BUILD_H")); [done|].
    by apply clear_decl_build_macros.
  - intros e He. specialize (Hocc e He). unfold build_result.
    destruct (decide (defined (pp_macros st) "__CARES_BUILD_H")) as [Hb|Hb]; [done|].
    cbn [pp_out]. by rewrite occurrences_app, Hocc, occurrences_build_out.
Qed.

Lemma build_result_once st :
  typedefs_once st →
  typedefs_once (build_result st) ∧
  defined (pp_macros (build_result st)) "__CARES_BUILD_H".
Proof.
  intros (Hd & Hcb & Hocc).
  destruct (build_result_occurrences st Hd Hocc) as (Hd' & Hb' & Hocc').
  split; [|done]. split; [done|]. split; [done|].
  intros e He. by rewrite decide_True, Hocc'.
Qed.

Lemma shim_result_once st :
  typedefs_once st →
  typedefs_once (shim_result st) ∧
  defined (pp_macros (shim_result st)) "__CARES_BUILD_H".
Proof.
  intros Hinv. pose proof Hinv as (Hd & Hcb & Hocc). unfold shim_result.
  destruct (decide (defined (pp_macros st) "C_ASYNC_RESOLVER_H")) as [Hc|Hc];
    [by auto|].
  cbn zeta. unfold typedefs_once. cbn [pp_macros pp_out].
  set (st1 := PP (<[ "C_ASYNC_RESOLVER_H" := [] ]> (pp_macros st))
                 (pp_out st ++ [Extern Angle "arpa/inet.h"; Extern Angle "netdb.h"])).
  destruct (build_result_occurrences st1) as (Hd' & Hb' & Hocc').
  { unfold st1. cbn [pp_macros]. apply clear_insert; [|done].
    unfold decl_idents. not_listed. }
  { intros e He. unfold st1. cbn [pp_macros pp_out].
    rewrite occurrences_app, (Hocc e He).
    assert (occurrences e [Extern Angle "arpa/inet.h"; Extern Angle "netdb.h"] = 0)
      as -> by (destruct He as [-> | ->]; reflexivity).
    rewrite Nat.add_0_r. apply decide_ext. unfold defined.
    by rewrite lookup_insert_ne. }
  split; [|done].
  split; [done|]. split; [done|].
  intros e He. rewrite decide_True by done.
  rewrite occurrences_app, (Hocc' e He).
  destruct He as [-> | ->]; reflexivity.
Qed.

Lemma include_each_once hs st :
  Forall (fun h => h = "CAsyncDNSResolver.h" ∨ h = "ares_build.h") hs →
  typedefs_once st →
  ∃ st', run_group (include_at nesting_limit) (include_each hs) st = Ok st' ∧
         typedefs_once st' ∧
         (hs ≠ [] → defined (pp_macros st') "__CARES_BUILD_H").
Proof.
  intros Hhs. revert st. induction Hhs as [|h hs Hh _ IH]; intros st Hinv.
  - exists st. by split.
  - cbn [include_each map]. rewrite run_group_cons, run_include.
    assert (∃ st1, include_at nesting_limit Quote h st = Ok st1 ∧
                   typedefs_once st1 ∧
                   defined (pp_macros st1) "__CARES_BUILD_H") as (st1 & -> & Hinv1 & Hb1).
    { unfold nesting_limit. destruct Hh as [-> | ->].
      - exists (shim_result st). change 200 with (S (S (S 197))).
        rewrite include_shim_eq. split; [done|]. by apply shim_result_once.
      - exists (build_result st). change 200 with (S (S 198)).
        rewrite include_build_eq. split; [done|]. by apply build_result_once. }
    rewrite bind_ok. destruct (IH st1 Hinv1) as (st' & Hrun & Hinv' & Hb').
    exists st'. split; [exact Hrun|]. split; [done|]. intros _.
    destruct hs as [|h' hs']; [|by apply Hb'].
    cbn in Hrun. by injection Hrun as <-.
Qed.

(** X4.  However often and in whatever order a translation unit includes
    the two headers (at least once, starting with both guards undefined
    and the identifiers of the typedef lines not taken by macros),
    preprocessing succeeds and the output holds each of the two typedefs
    exactly once: the guards never let a second copy through, and never
    keep the first one out. *)
Theorem X4_typedefs_exactly_once (m : macros) (hs : list string) :
  clear guards m → clear decl_idents m →
  Forall (fun h => h = "CAsyncDNSResolver.h" ∨ h = "ares_build.h") hs →
  hs ≠ [] →
  ∃ st, preprocess m (include_each hs) = Ok st ∧
        occurrences typedef_socklen (pp_out st) = 1 ∧
        occurrences typedef_ssize (pp_out st) = 1.
Proof.
  intros Hg Hd Hhs Hne.
  destruct (include_each_once hs (PP m []) Hhs) as (st & Hrun & (_ & _ & Hocc) & Hb).
  { split; [done|]. split.
    - intros Hc. exfalso. revert Hc. apply (clear_not_defined _ _ _ Hg).
      unfold guards. rewrite !elem_of_cons. tauto.
    - intros e He. cbn [pp_macros pp_out]. rewrite decide_False; [done|].
      apply (clear_not_defined _ _ _ Hg). unfold guards. rewrite !elem_of_cons. tauto. }
  exists st. split; [exact Hrun|].
  rewrite !Hocc by tauto. by rewrite decide_True by auto.
Qed.

Lemma X4_witness :
  clear guards ∅ ∧ clear decl_idents ∅ ∧
  ∃ st, preprocess ∅ (include_each ["ares_build.h"; "CAsyncDNSResolver.h";
                                    "ares_build.h"; "CAsyncDNSResolver.h"]) = Ok st ∧
        occurrences typedef_socklen (pp_out st) = 1 ∧
        occurrences typedef_ssize (pp_out st) = 1.
Proof.
  split; [apply clear_empty|]. split; [apply clear_empty|].
  apply (X4_typedefs_exactly_once ∅); [apply clear_empty | apply clear_empty | | done].
  repeat (apply Forall_cons_2; [tauto|]). apply Forall_nil_2.
Defined.

(* --------------------------------------------------------------------- *)

Lemma build_macros_guard m : build_macros m !! "__CARES_BUILD_H" = Some [].
Proof.
  unfold build_macros. do 4 (rewrite lookup_insert_ne by done).
  apply lookup_insert_eq.
Qed.

Lemma build_macros_insert m n b :
  n ∉ flat_map defined_names ares_build_h →
  build_macros (<[ n := b ]> m) = <[ n := b ]> (build_macros m).
Proof.
  intros Hn. apply map_eq. intros k.
  destruct (decide (n = k)) as [<-|Hne].
  - rewrite lookup_insert_eq, build_macros_other by done. apply lookup_insert_eq.
  - rewrite lookup_insert_ne by done.
    destruct (decide (k ∈ flat_map defined_names ares_build_h)) as [Hk|Hk].
    + revert Hk. simpl. rewrite !elem_of_cons, elem_of_nil.
      unfold build_macros.
      intros [-> | [-> | [-> | [-> | [-> | []]]]]]; by simplify_map_eq.
    + rewrite !build_macros_other by done. by rewrite lookup_insert_ne.
Qed.

(** X5.  The two headers may be included in either order (both guards
    undefined at the start).  After CAsyncDNSResolver.h, including
    ares_build.h changes nothing at all.  After ares_build.h, including
    CAsyncDNSResolver.h adds the four inclusions of its own lines (18, 19,
    22, 23) behind what ares_build.h put out, and nothing of ares_build.h
    a second time.  Both orders leave the same macro table. *)
Theorem X5_either_order (m : macros) :
  clear guards m →
  preprocess m (include_each ["CAsyncDNSResolver.h"; "ares_build.h"])
    = preprocess m include_shim ∧
  ∃ sb ss st,
    preprocess m include_build = Ok sb ∧
    preprocess m include_shim = Ok ss ∧
    preprocess m (include_each ["ares_build.h"; "CAsyncDNSResolver.h"]) = Ok st ∧
    pp_out st = pp_out sb ++ [Extern Angle "arpa/inet.h"; Extern Angle "netdb.h";
                              ares_config_h; ares_h] ∧
    pp_macros st = pp_macros ss.
Proof.
  intros Hg.
  assert (¬ defined m "C_ASYNC_RESOLVER_H" ∧ ¬ defined m "__CARES_BUILD_H")
    as [Hc Hb].
  { split; apply (clear_not_defined _ _ _ Hg); unfold guards;
      rewrite !elem_of_cons; tauto. }
  assert (∀ s, include_at nesting_limit Quote "CAsyncDNSResolver.h" s
               = Ok (shim_result s)) as Hs.
  { intros s. unfold nesting_limit. change 200 with (S (S (S 197))).
    apply include_shim_eq. }
  assert (∀ s, include_at nesting_limit Quote "ares_build.h" s
               = Ok (build_result s)) as Hbld.
  { intros s. unfold nesting_limit. change 200 with (S (S 198)).
    apply include_build_eq. }
  split.
  - rewrite preprocess_shim. unfold preprocess, include_each. cbn [map].
    rewrite run_group_cons, run_include, Hs, bind_ok.
    rewrite run_group_single, run_include, Hbld.
    f_equal. unfold build_result. rewrite decide_True; [done|].
    rewrite shim_result_first by done. cbn [pp_macros].
    unfold defined. rewrite build_macros_guard. eauto.
  - exists (build_result (PP m [])), (shim_result (PP m [])).
    eexists. split; [apply preprocess_build|]. split; [apply preprocess_shim|].
    split.
    { unfold preprocess, include_each. cbn [map].
      rewrite run_group_cons, run_include, Hbld, bind_ok.
      rewrite run_group_single, run_include, Hs. reflexivity. }
    rewrite build_result_first, shim_result_first by done.
    unfold shim_result. cbn [pp_macros pp_out].
    rewrite decide_False.
    2:{ unfold defined. rewrite build_macros_other by (simpl; not_listed). done. }
    unfold build_result. cbn [pp_macros pp_out].
    rewrite decide_True.
    2:{ unfold defined. rewrite lookup_insert_ne, build_macros_guard by done.
        eauto. }
    cbn [pp_macros pp_out]. split.
    + by rewrite <- !app_assoc.
    + symmetry. apply build_macros_insert. simpl. not_listed.
Qed.

Lemma X5_witness :
  clear guards ∅ ∧
  preprocess ∅ (include_each ["CAsyncDNSResolver.h"; "ares_build.h"])
    = preprocess ∅ include_shim.
Proof.
  split; [apply clear_empty|].
  apply (X5_either_order ∅), clear_empty.
Defined.

(* --------------------------------------------------------------------- *)



(* --------------------------------------------------------------------- *)

(** A typedef line whose type is named through a macro that itself stands
    for a macro: the replacement is rescanned once more. *)
Lemma expand_typedef_rescan m X t alias body :
  m !! "typedef" = None → m !! X = Some [Id t] → m !! t = Some body →
  (∀ s, Id s ∈ body → m !! s = None) → m !! alias = None →
  expand_line m [Id "typedef"; Id X; Id alias; Punct ";"]
  = Id "typedef" :: body ++ [Id alias; Punct ";"].
Proof.
  intros Htd HX Ht Hbody Ha.
  assert (t ≠ X) as Hne.
  { intros ->. rewrite HX in Ht. injection Ht as <-.
    specialize (Hbody X). rewrite HX in Hbody.
    assert (Some [Id X] = None) as Hbad
      by (apply Hbody, list_elem_of_singleton; reflexivity).
    discriminate Hbad. }
  unfold expand_line.
  destruct (size m) as [|n] eqn:Hsz.
  { apply map_size_empty_inv in Hsz. subst m. by rewrite lookup_empty in HX. }
  rewrite replace_S. cbn [flat_map replace_token].
  rewrite !decide_False by set_solver. rewrite Htd, HX, Ha.
  rewrite replace_S. cbn [flat_map replace_token].
  rewrite decide_False by set_solver. rewrite Ht.
  rewrite replace_inert; [simpl; by rewrite !app_nil_r|].
  intros s Hs. right. by apply Hbody.
Qed.

Lemma keyword_not_defined_name s :
  s ∈ basic_keywords → s ∉ flat_map defined_names ares_build_h.
Proof.
  unfold basic_keywords. rewrite !elem_of_cons, elem_of_nil.
  intros [-> | [-> | [-> | [-> | [-> | [-> | [-> | [-> | [-> | []]]]]]]]]];
    simpl; not_listed.
Qed.

(** X7.  If the unit comes with [socklen_t] itself defined as a macro for
    basic type keywords (as in [-Dsocklen_t=int] on a target whose headers
    lack the type), line 52 is replaced through both macros and what comes
    out is [typedef <those keywords> ares_socklen_t;]; likewise for
    [ssize_t] and line 53.  (First inclusion; [typedef], the alias name
    and the keywords themselves not taken by macros.) *)
Theorem X7_type_name_as_macro (m : macros) (body : list token) :
  ¬ defined m "__CARES_BUILD_H" → m !! "typedef" = None →
  clear basic_keywords m → is_basic body = true →
  (m !! "socklen_t" = Some body → m !! "ares_socklen_t" = None →
   Line (Id "typedef" :: body ++ [Id "ares_socklen_t"; Punct ";"])
     ∈ out_of (preprocess m include_build)) ∧
  (m !! "ssize_t" = Some body → m !! "ares_ssize_t" = None →
   Line (Id "typedef" :: body ++ [Id "ares_ssize_t"; Punct ";"])
     ∈ out_of (preprocess m include_build)).
Proof.
  intros Hg Htd Hkw Hbasic.
  rewrite preprocess_build, build_result_first by done. cbn [out_of pp_out app].
  assert (∀ s, Id s ∈ body → build_macros m !! s = None) as Hbody.
  { intros s Hs. assert (s ∈ basic_keywords) as Hin.
    { destruct body as [|t0 body0]; [done|]. cbn [is_basic] in Hbasic.
      rewrite forallb_forall in Hbasic.
      specialize (Hbasic (Id s)). cbn [is_keyword] in Hbasic.
      assert (bool_decide (s ∈ basic_keywords) = true) as Hk
        by (apply Hbasic, list_elem_of_In, Hs).
      by apply bool_decide_eq_true in Hk. }
    rewrite build_macros_other by (by apply keyword_not_defined_name).
    by apply (clear_lookup _ _ _ Hkw). }
  assert (∀ n, n ∉ flat_map defined_names ares_build_h →
               m !! n = None → build_macros m !! n = None) as Hfree.
  { intros n Hn Hm. by rewrite build_macros_other. }
  split; intros Ht Ha; rewrite build_out_elem; do 3 right;
    unfold typedef_lines, line_52, line_53; rewrite !elem_of_cons.
  - left. f_equal. symmetry.
    apply (expand_typedef_rescan _ _ "socklen_t"); try done.
    + apply Hfree; [simpl; not_listed|done].
    + unfold build_macros. by simplify_map_eq.
    + rewrite build_macros_other by (simpl; not_listed). done.
    + apply Hfree; [simpl; not_listed|done].
  - right. left. f_equal. symmetry.
    apply (expand_typedef_rescan _ _ "ssize_t"); try done.
    + apply Hfree; [simpl; not_listed|done].
    + unfold build_macros. by simplify_map_eq.
    + rewrite build_macros_other by (simpl; not_listed). done.
    + apply Hfree; [simpl; not_listed|done].
Qed.

Lemma X7_witness :
  Line [Id "typedef"; Id "int"; Id "ares_socklen_t"; Punct ";"]
    ∈ out_of (preprocess {[ "socklen_t" := [Id "int"] ]} include_build).
Proof.
  apply (X7_type_name_as_macro {[ "socklen_t" := [Id "int"] ]} [Id "int"]).
  - unfold defined. rewrite lookup_singleton_ne by done. by intros [? ?].
  - by rewrite lookup_singleton_ne.
  - unfold clear, basic_keywords.
    repeat (apply Forall_cons_2; [by rewrite lookup_singleton_ne|]).
    apply Forall_nil_2.
  - reflexivity.
  - apply lookup_singleton_eq.
  - by rewrite lookup_singleton_ne.
Defined.

(* --------------------------------------------------------------------- *)

Lemma bind_err {A B} (e : error) (f : A -> result B) : (x <- Err e ;; f x) = Err e.
Proof. reflexivity. Qed.




(* --------------------------------------------------------------------- *)

(** X9.  Once ares_build.h has been included, any later group under
    [#ifndef __CARES_BUILD_H], such as another build-configuration header
    that uses the same guard, is skipped whatever it contains; the same
    holds after a first inclusion of CAsyncDNSResolver.h.  The
    configuration of this header is the one that stands. *)
Theorem X9_guard_shadows_later_groups (st : pp_state) (group : list directive) :
  run_group (include_at nesting_limit)
    [Include Quote "ares_build.h"; IfNDef "__CARES_BUILD_H" group] st
  = run_group (include_at nesting_limit) [Include Quote "ares_build.h"] st ∧
  (¬ defined (pp_macros st) "C_ASYNC_RESOLVER_H" →
   run_group (include_at nesting_limit)
     [Include Quote "CAsyncDNSResolver.h"; IfNDef "__CARES_BUILD_H" group] st
   = run_group (include_at nesting_limit) [Include Quote "CAsyncDNSResolver.h"] st).
Proof.
  assert (∀ s, include_at nesting_limit Quote "CAsyncDNSResolver.h" s
               = Ok (shim_result s)) as Hs.
  { intros s. unfold nesting_limit. change 200 with (S (S (S 197))).
    apply include_shim_eq. }
  assert (∀ s, include_at nesting_limit Quote "ares_build.h" s
               = Ok (build_result s)) as Hb.
  { intros s. unfold nesting_limit. change 200 with (S (S 198)).
    apply include_build_eq. }
  split.
  - rewrite run_group_cons, run_include, Hb, bind_ok.
    rewrite !run_group_single, run_ifndef, run_include, Hb.
    by rewrite decide_True by apply build_result_guard.
  - intros Hc. rewrite run_group_cons, run_include, Hs, bind_ok.
    rewrite !run_group_single, run_ifndef, run_include, Hs.
    rewrite decide_True; [done|].
    unfold shim_result. rewrite decide_False by done. cbn [pp_macros].
    apply build_result_guard.
Qed.

(* --------------------------------------------------------------------- *)

(** X10.  How the first inclusion of CAsyncDNSResolver.h ends on a target
    with no Windows flag predefined (identifiers of the typedef lines not
    taken by macros), in the order of the source lines: the first of
    arpa/inet.h, netdb.h, sys/types.h, sys/socket.h that the target lacks
    is the missing header reported; with all four there, [socklen_t] and
    then [ssize_t] must have been declared by one of the four (not
    necessarily by sys/socket.h or sys/types.h), else that type is
    undefined; only then are ares_config.h and ares.h looked for, in this
    order; and with everything there the unit compiles, its scope being
    what the six headers declare plus the two aliases. *)
Theorem X10_shim_outcome (P : platform) (m : macros) :
  clear guards m → clear decl_idents m → clear windows_flags m →
  compile P m include_shim =
  match P !! "arpa/inet.h" with
  | None => Err (MissingHeader "arpa/inet.h")
  | Some da =>
  match P !! "netdb.h" with
  | None => Err (MissingHeader "netdb.h")
  | Some dn =>
  match P !! "sys/types.h" with
  | None => Err (MissingHeader "sys/types.h")
  | Some d1 =>
  match P !! "sys/socket.h" with
  | None => Err (MissingHeader "sys/socket.h")
  | Some d2 =>
      let T1 : typedefs := declare d2 (declare d1 (declare dn (declare da ∅))) in
      match T1 !! "socklen_t" with
      | None => Err (UndefinedType [Id "socklen_t"])
      | Some r1 =>
      match T1 !! "ssize_t" with
      | None => Err (UndefinedType [Id "ssize_t"])
      | Some r2 =>
          let T2 : typedefs :=
            <[ "ares_ssize_t" := r2 ]> (<[ "ares_socklen_t" := r1 ]> T1) in
          match P !! "ares_config.h" with
          | None => Err (MissingHeader "ares_config.h")
          | Some dc =>
          match P !! "../c-ares/include/ares.h" with
          | None => Err (MissingHeader "../c-ares/include/ares.h")
          | Some dr => Ok (declare dr (declare dc T2))
          end end
      end end
  end end end end.
Proof.
  intros Hg Hd Hw. unfold compile.
  rewrite preprocess_shim, shim_result_first by done. cbn [bind pp_out].
  rewrite build_out_posix.
  2:{ apply clear_insert; [|done]. unfold decl_idents. not_listed. }
  2:{ apply clear_insert; [|done]. unfold windows_flags. not_listed. }
  unfold typedef_socklen, typedef_ssize, ares_config_h, ares_h.
  cbn [app check check_event].
  destruct (P !! "arpa/inet.h") as [da|]; cbn [bind]; [|done].
  destruct (P !! "netdb.h") as [dn|]; cbn [bind]; [|done].
  destruct (P !! "sys/types.h") as [d1|]; cbn [bind]; [|done].
  destruct (P !! "sys/socket.h") as [d2|]; cbn [bind]; [|done].
  rewrite parse_socklen, parse_ssize, resolve_socklen. cbn zeta.
  destruct (declare d2 (declare d1 (declare dn (declare da ∅))) !! "socklen_t")
    as [r1|]; cbn [bind]; [|done].
  rewrite resolve_ssize, lookup_insert_ne by done.
  destruct (declare d2 (declare d1 (declare dn (declare da ∅))) !! "ssize_t")
    as [r2|]; cbn [bind]; [|done].
  destruct (P !! "ares_config.h") as [dc|]; cbn [bind]; [|done].
  by destruct (P !! "../c-ares/include/ares.h") as [dr|].
Qed.

Lemma X10_witness :
  clear guards ∅ ∧ clear decl_idents ∅ ∧ clear windows_flags ∅ ∧
  compile (delete "ares_config.h" lp64_platform) ∅ include_shim
    = Err (MissingHeader "ares_config.h").
Proof.
  split; [apply clear_empty|].
  split; [apply clear_empty|]. split; [apply clear_empty|].
  rewrite (X10_shim_outcome (delete "ares_config.h" lp64_platform) ∅);
    [ vm_compute; reflexivity
    | apply clear_empty | apply clear_empty | apply clear_empty ].
Defined.
